(** * Benthos: transactional message delivery

    A shallow embedding of the in-memory buffer agent ([buffer.Memory]) and
    of the fallback output router, with the properties the specification
    states about them.

    - [GoInt]: Go's 64-bit [int] arithmetic, wrap-around written out.
    - [Buffer]: the [Memory] agent: queue operations, the unified event
      loop [loop], the two-goroutine variant [inputLoop]/[outputLoop], and
      [StartReceiving]/[StartListening].
    - [Fallback]: the ordered fallback router. *)

From Stdlib Require Import ZArith List Lia Bool.
From stdpp Require Import base list strings gmap pretty.

Local Open Scope Z_scope.

(** ** Go's [int] *)

Module GoInt.

(** [int] is a signed 64-bit integer; results of [+] and [-] wrap. *)
Definition max_int : Z := 2 ^ 63 - 1.
Definition min_int : Z := - 2 ^ 63.

Definition wrap (z : Z) : Z := (z + 2 ^ 63) mod 2 ^ 64 - 2 ^ 63.

Definition add (a b : Z) : Z := wrap (a + b).
Definition sub (a b : Z) : Z := wrap (a - b).

Definition in_range (z : Z) : Prop := min_int <= z <= max_int.

End GoInt.

(** ** The memory buffer agent *)

Module Buffer.

(** A Go byte slice: its elements and the spare room behind them, so
    that [cap] is the length plus the spare room and never below [len]. *)
Record ByteSlice := mkSlice { elems : list Byte.byte; spare : N }.

Definition len (s : ByteSlice) : Z := Z.of_nat (length (elems s)).
Definition cap (s : ByteSlice) : Z := len s + Z.of_N (spare s).

(** [types.Message] *)
Record Message := mkMessage { Parts : list ByteSlice }.

(** Error values.  The first two are the package's own; the next two
    are declared by package [types]; [ErrOther] stands for any error a
    downstream consumer reports, told apart by identity. *)
Inductive error :=
| ErrOutOfBounds
| ErrBufferReachedLimit
| ErrAlreadyStarted
| ErrTimeout
| ErrOther (id : nat).

Definition error_eqb (a b : error) : bool :=
  match a, b with
  | ErrOutOfBounds, ErrOutOfBounds => true
  | ErrBufferReachedLimit, ErrBufferReachedLimit => true
  | ErrAlreadyStarted, ErrAlreadyStarted => true
  | ErrTimeout, ErrTimeout => true
  | ErrOther i, ErrOther j => Nat.eqb i j
  | _, _ => false
  end.

(** [types.Response]: [NewSimpleResponse err], read back by [Error()]. *)
Record Response := NewSimpleResponse { Error : option error }.

(** A channel handed in by the caller, known by its identity; [None]
    is Go's nil channel. *)
Definition chan := nat.
Bind Scope nat_scope with chan.

(** The [Memory] struct.  [buffer] holds the queued messages (the Go
    slice holds pointers to messages nobody else writes to).  The four
    channels made by [NewMemory] are never reassigned; they show up as
    the labels of the loops' actions. *)
Record Memory := mkMemory {
  buffer : list Message;
  limit : Z;
  used : Z;
  running : Z;
  messagesIn : option chan;
  responsesIn : option chan;
  closedWG : Z;
  spawned : nat
}.

Definition NewMemory (limit : Z) : Memory :=
  {| buffer := []; limit := limit; used := 0; running := 1;
     messagesIn := None; responsesIn := None; closedWG := 0;
     spawned := 0%nat |}.

Definition set_queue (b : list Message) (u : Z) (m : Memory) : Memory :=
  {| buffer := b; limit := limit m; used := u; running := running m;
     messagesIn := messagesIn m; responsesIn := responsesIn m;
     closedWG := closedWG m; spawned := spawned m |}.

Definition set_running (r : Z) (m : Memory) : Memory :=
  {| buffer := buffer m; limit := limit m; used := used m; running := r;
     messagesIn := messagesIn m; responsesIn := responsesIn m;
     closedWG := closedWG m; spawned := spawned m |}.

Definition set_messagesIn (c : option chan) (m : Memory) : Memory :=
  {| buffer := buffer m; limit := limit m; used := used m;
     running := running m;
     messagesIn := c; responsesIn := responsesIn m;
     closedWG := closedWG m; spawned := spawned m |}.

Definition set_responsesIn (c : option chan) (m : Memory) : Memory :=
  {| buffer := buffer m; limit := limit m; used := used m;
     running := running m;
     messagesIn := messagesIn m; responsesIn := c;
     closedWG := closedWG m; spawned := spawned m |}.

(** [closedWG.Add(n)] followed by starting [n] goroutines. *)
Definition spawn_loops (n : nat) (m : Memory) : Memory :=
  {| buffer := buffer m; limit := limit m; used := used m;
     running := running m;
     messagesIn := messagesIn m; responsesIn := responsesIn m;
     closedWG := closedWG m + Z.of_nat n;
     spawned := (spawned m + n)%nat |}.

(** [closedWG.Done()]. *)
Definition spawn_done (m : Memory) : Memory :=
  {| buffer := buffer m; limit := limit m; used := used m;
     running := running m;
     messagesIn := messagesIn m; responsesIn := responsesIn m;
     closedWG := closedWG m - 1; spawned := spawned m |}.

(** The loop [for i := range msg.Parts { size += cap(msg.Parts[i]) }]. *)
Definition messageSize (msg : Message) : Z :=
  fold_left (fun size p => GoInt.add size (cap p)) (Parts msg) 0.

(** Methods run under the agent's lock: state in, result and state out. *)
Definition locked (A : Type) : Type := Memory -> A * Memory.

Definition shiftMessage : locked unit := fun m =>
  match buffer m with
  | [] => (tt, m)
  | msg :: rest =>
      let size := messageSize msg in
      (tt, set_queue rest (GoInt.sub (used m) size) m)
  end.

Definition nextMessage : locked (option Message * option error) := fun m =>
  match buffer m with
  | [] => ((None, Some ErrOutOfBounds), m)
  | msg :: _ => ((Some msg, None), m)
  end.

Definition pushMessage (msg : Message) : locked bool := fun m =>
  let size := messageSize msg in
  let m' := set_queue (buffer m ++ [msg]) (GoInt.add (used m) size) m in
  (limit m' <? used m', m').

Definition limitReached : locked bool := fun m =>
  (limit m <? used m, m).

(** [StartReceiving] and [StartListening].  The argument may be Go's
    nil channel.  Only [StartListening] starts the two loops (the start
    in [StartReceiving] is commented out in the source). *)
Definition StartReceiving (msgs : option chan)
  : Memory -> option error * Memory := fun m =>
  match messagesIn m with
  | Some _ => (Some ErrAlreadyStarted, m)
  | None => (None, set_messagesIn msgs m)
  end.

Definition StartListening (responses : option chan)
  : Memory -> option error * Memory := fun m =>
  match responsesIn m with
  | Some _ => (Some ErrAlreadyStarted, m)
  | None =>
      let m1 := set_responsesIn responses m in
      match messagesIn m1 with
      | Some _ => (None, spawn_loops 2 m1)
      | None => (None, m1)
      end
  end.

(** [CloseAsync]: the store to [running]; closing [closeChan] is the
    [CloseSignal] event of the unified loop. *)
Definition CloseAsync (m : Memory) : Memory := set_running 0 m.

(** *** What the surroundings of a loop observe *)

Inductive own_chan := MessagesOut | ResponsesOut | ErrorsChan.

Inductive Action :=
| Accepted (msg : Message)       (* a message received from messagesIn *)
| Responded (res : Response)     (* a response sent on responsesOut *)
| Forwarded (msg : Message)      (* a message sent on messagesOut *)
| Reported (errs : list error)   (* a slice sent on errorsChan *)
| Closed (c : own_chan).         (* close(c) *)

(** *** The unified event loop, [loop] *)

Record LoopState := mkLoop {
  mem : Memory;
  loop_running : bool;
  responseInPending : bool;
  responseOutPending : bool;
  errors : list error
}.

Definition loop_init (m : Memory) : LoopState :=
  {| mem := m; loop_running := true; responseInPending := false;
     responseOutPending := false; errors := [] |}.

(** The channel variables the loop sets before each [select]; [None] is
    a nil channel, whose case can never be taken. *)
Record Select := mkSelect {
  inMsgChan : option chan;
  outMsgChan : option own_chan;
  outResChan : option own_chan;
  nextMsg : Message;
  errChan : option own_chan
}.

Definition prepare (st : LoopState) : Select :=
  let m := mem st in
  let '(outMsg, next) :=
    match negb (responseInPending st), buffer m with
    | true, head :: _ => (Some MessagesOut, head)
    | _, _ => (None, mkMessage [])
    end in
  let '(inMsg, outRes) :=
    if negb (fst (limitReached m)) then
      if responseOutPending st then (None, Some ResponsesOut)
      else (messagesIn m, None)
    else (None, None) in
  {| inMsgChan := inMsg; outMsgChan := outMsg; outResChan := outRes;
     nextMsg := next;
     errChan := match errors st with [] => None | _ => Some ErrorsChan end |}.

(** The cases of the [select], with what the peer supplies: a receive
    yields [None] when the channel has been closed. *)
Inductive Event :=
| RecvMessage (x : option Message)
| SendResponse
| SendMessage
| RecvResponse (x : option Response)
| SendErrors
| CloseSignal.

Definition with_mem (m : Memory) (st : LoopState) : LoopState :=
  {| mem := m; loop_running := loop_running st;
     responseInPending := responseInPending st;
     responseOutPending := responseOutPending st; errors := errors st |}.

Definition with_in_pending (b : bool) (st : LoopState) : LoopState :=
  {| mem := mem st; loop_running := loop_running st;
     responseInPending := b;
     responseOutPending := responseOutPending st; errors := errors st |}.

Definition with_out_pending (b : bool) (st : LoopState) : LoopState :=
  {| mem := mem st; loop_running := loop_running st;
     responseInPending := responseInPending st;
     responseOutPending := b; errors := errors st |}.

Definition with_errors (es : list error) (st : LoopState) : LoopState :=
  {| mem := mem st; loop_running := loop_running st;
     responseInPending := responseInPending st;
     responseOutPending := responseOutPending st; errors := es |}.

Definition stop (st : LoopState) : LoopState :=
  {| mem := mem st; loop_running := false;
     responseInPending := responseInPending st;
     responseOutPending := responseOutPending st; errors := errors st |}.

(** One [select]: [None] when the chosen case is not ready. *)
Definition select (sel : Select) (st : LoopState) (ev : Event)
  : option (LoopState * list Action) :=
  match ev with
  | RecvMessage x =>
      match inMsgChan sel with
      | None => None
      | Some _ =>
          match x with
          | None => Some (with_mem (set_messagesIn None (mem st)) st, [])
          | Some msg =>
              let '(_, m') := pushMessage msg (mem st) in
              Some (with_out_pending true (with_mem m' st), [Accepted msg])
          end
      end
  | SendResponse =>
      match outResChan sel with
      | None => None
      | Some _ =>
          Some (with_out_pending false st,
                [Responded (NewSimpleResponse None)])
      end
  | SendMessage =>
      match outMsgChan sel with
      | None => None
      | Some _ => Some (with_in_pending true st, [Forwarded (nextMsg sel)])
      end
  | RecvResponse x =>
      match responsesIn (mem st) with
      | None => None
      | Some _ =>
          let st' :=
            match x with
            | None => with_mem (set_responsesIn None (mem st)) st
            | Some res =>
                match Error res with
                | Some e => with_errors (errors st ++ [e]) st
                | None => with_mem (snd (shiftMessage (mem st))) st
                end
            end in
          Some (with_in_pending false st', [])
      end
  | SendErrors =>
      match errChan sel with
      | None => None
      | Some _ => Some (with_errors [] st, [Reported (errors st)])
      end
  | CloseSignal => Some (stop st, [])
  end.

(** One turn of [for running { ... }]. *)
Definition loop_iter (st : LoopState) (ev : Event)
  : option (LoopState * list Action) :=
  if loop_running st then select (prepare st) st ev else None.

(** The statements after the [for]. *)
Definition loop_exit (st : LoopState) : LoopState * list Action :=
  (with_mem (spawn_done (mem st)) st,
   [Closed MessagesOut; Closed ErrorsChan; Closed ResponsesOut]).

Fixpoint loop_run (evs : list Event) (st : LoopState)
  : option (LoopState * list Action) :=
  match evs with
  | [] => Some (st, [])
  | ev :: evs' =>
      match loop_iter st ev with
      | None => None
      | Some (st1, acts1) =>
          match loop_run evs' st1 with
          | None => None
          | Some (st2, acts2) => Some (st2, acts1 ++ acts2)
          end
      end
  end.

(** [loop] as a whole, on a schedule of events: the turns, and the exit
    once [running] is false. *)
Definition loop (evs : list Event) (m : Memory)
  : option (LoopState * list Action) :=
  match loop_run evs (loop_init m) with
  | None => None
  | Some (st, acts) =>
      if loop_running st then Some (st, acts)
      else let '(st', acts') := loop_exit st in Some (st', acts ++ acts')
  end.

(** *** The two-goroutine variant: [inputLoop] and [outputLoop]

    Each goroutine is a program counter plus its local variables; a step
    is one access to the shared [Memory] (under the lock or atomic) or
    one channel operation.  Steps of the two goroutines interleave. *)

Inductive InPC :=
| InLoopCond                (* for atomic.LoadInt32(&m.running) == 1 *)
| InCheckLimit              (* if !m.limitReached() *)
| InSendPending             (* m.responsesOut <- nil response; pending = false *)
| InRecv                    (* msg, open := <-m.messagesIn *)
| InPush (msg : Message)    (* if !m.pushMessage(&msg) *)
| InSendNow                 (* m.responsesOut <- nil response *)
| InSleep                   (* <-time.After(10us) *)
| InClosing                 (* close(m.responsesOut); m.closedWG.Done() *)
| InDone.

Inductive OutPC :=
| OutLoopCond               (* for atomic.LoadInt32(&m.running) == 1 *)
| OutFetch                  (* if msg == nil { msg, err = m.nextMessage() } *)
| OutSend                   (* m.messagesOut <- *msg *)
| OutRecvRes                (* res, open := <-m.responsesIn *)
| OutShift                  (* m.shiftMessage() *)
| OutSleep                  (* <-time.After(10us) *)
| OutErrs                   (* if len(errs) > 0 { select ... default } *)
| OutClosing                (* close(m.errorsChan); close(m.messagesOut); Done *)
| OutDone
| OutPanic.                 (* the goroutine panicked: the process is gone *)

Record DualState := mkDual {
  shared : Memory;
  in_pc : InPC;
  responsePending : bool;
  out_pc : OutPC;
  out_msg : option Message;          (* var msg *types.Message *)
  errMap : option (list error);      (* var errMap map[error]struct{}; None is the nil map *)
  errs : list error
}.

Definition dual_init (m : Memory) : DualState :=
  {| shared := m; in_pc := InLoopCond; responsePending := false;
     out_pc := OutLoopCond; out_msg := None; errMap := None; errs := [] |}.

Definition in_goto (pc : InPC) (pending : bool) (m : Memory)
    (st : DualState) : DualState :=
  {| shared := m; in_pc := pc; responsePending := pending;
     out_pc := out_pc st; out_msg := out_msg st; errMap := errMap st;
     errs := errs st |}.

Definition out_goto (pc : OutPC) (msg : option Message)
    (em : option (list error)) (es : list error) (m : Memory)
    (st : DualState) : DualState :=
  {| shared := m; in_pc := in_pc st; responsePending := responsePending st;
     out_pc := pc; out_msg := msg; errMap := em; errs := es |}.

(** Who moves next, and what the peer supplies. *)
Inductive DualEvent :=
| InTick                         (* inputLoop's next step; a send finds its reader *)
| InReceive (x : option Message) (* inputLoop's receive; None: messagesIn closed *)
| OutTick                        (* outputLoop's next step; at the select, the default case *)
| OutReceive (x : option Response) (* outputLoop's receive; None: responsesIn closed *)
| OutHandOver                    (* at the select, the reader of errorsChan is ready *)
| CallCloseAsync.                (* some caller runs CloseAsync *)

(** [inputLoop], one step at a time: [None] when the event is not what
    the goroutine waits for. *)
Definition inputLoop (st : DualState) (ev : DualEvent)
  : option (DualState * list Action) :=
  let m := shared st in
  let rp := responsePending st in
  match in_pc st, ev with
  | InLoopCond, InTick =>
      if running m =? 1 then Some (in_goto InCheckLimit rp m st, [])
      else Some (in_goto InClosing rp m st, [])
  | InCheckLimit, InTick =>
      let '(reached, m') := limitReached m in
      if negb reached then
        if rp then Some (in_goto InSendPending rp m' st, [])
        else Some (in_goto InRecv rp m' st, [])
      else Some (in_goto InSleep rp m' st, [])
  | InSendPending, InTick =>
      Some (in_goto InRecv false m st, [Responded (NewSimpleResponse None)])
  | InRecv, InReceive x =>
      match messagesIn m with
      | None => None
      | Some _ =>
          match x with
          | None => Some (in_goto InLoopCond rp (set_running 0 m) st, [])
          | Some msg => Some (in_goto (InPush msg) rp m st, [Accepted msg])
          end
      end
  | InPush msg, InTick =>
      let '(over, m') := pushMessage msg m in
      if negb over then Some (in_goto InSendNow rp m' st, [])
      else Some (in_goto InLoopCond true m' st, [])
  | InSendNow, InTick =>
      Some (in_goto InLoopCond rp m st, [Responded (NewSimpleResponse None)])
  | InSleep, InTick => Some (in_goto InLoopCond rp m st, [])
  | InClosing, InTick =>
      Some (in_goto InDone rp (spawn_done m) st, [Closed ResponsesOut])
  | _, _ => None
  end.

(** [outputLoop], one step at a time. *)
Definition outputLoop (st : DualState) (ev : DualEvent)
  : option (DualState * list Action) :=
  let m := shared st in
  let msg := out_msg st in
  let em := errMap st in
  let es := errs st in
  match out_pc st, ev with
  | OutLoopCond, OutTick =>
      if running m =? 1 then Some (out_goto OutFetch msg em es m st, [])
      else Some (out_goto OutClosing msg em es m st, [])
  | OutFetch, OutTick =>
      let '((msg', err), m') :=
        match msg with
        | None => nextMessage m
        | Some _ => ((msg, None), m)
        end in
      match err, msg' with
      | None, Some _ => Some (out_goto OutSend msg' em es m' st, [])
      | _, _ => Some (out_goto OutSleep msg' em es m' st, [])
      end
  | OutSend, OutTick =>
      match msg with
      | Some x => Some (out_goto OutRecvRes msg em es m st, [Forwarded x])
      | None => None
      end
  | OutRecvRes, OutReceive x =>
      match responsesIn m with
      | None => None
      | Some _ =>
          match x with
          | None => Some (out_goto OutErrs msg em es (set_running 0 m) st, [])
          | Some res =>
              match Error res with
              | None => Some (out_goto OutShift None em es m st, [])
              | Some e =>
                  match em with
                  | None =>
                      (* the read of the nil map finds nothing; the
                         assignment to its entry panics *)
                      Some (out_goto OutPanic msg em es m st, [])
                  | Some keys =>
                      if existsb (error_eqb e) keys
                      then Some (out_goto OutErrs msg em es m st, [])
                      else Some (out_goto OutErrs msg (Some (e :: keys))
                                   (es ++ [e]) m st, [])
                  end
              end
          end
      end
  | OutShift, OutTick =>
      let '(_, m') := shiftMessage m in
      Some (out_goto OutErrs msg em es m' st, [])
  | OutSleep, OutTick => Some (out_goto OutErrs msg em es m st, [])
  | OutErrs, OutTick => Some (out_goto OutLoopCond msg em es m st, [])
  | OutErrs, OutHandOver =>
      match es with
      | [] => None
      | _ => Some (out_goto OutLoopCond msg (Some []) [] m st, [Reported es])
      end
  | OutClosing, OutTick =>
      Some (out_goto OutDone msg em es (spawn_done m) st,
            [Closed ErrorsChan; Closed MessagesOut])
  | _, _ => None
  end.

(** The two goroutines side by side; a panic in one ends the process. *)
Definition dual_step (st : DualState) (ev : DualEvent)
  : option (DualState * list Action) :=
  match out_pc st with
  | OutPanic => None
  | _ =>
      match ev with
      | InTick | InReceive _ => inputLoop st ev
      | OutTick | OutReceive _ | OutHandOver => outputLoop st ev
      | CallCloseAsync =>
          Some (in_goto (in_pc st) (responsePending st)
                  (CloseAsync (shared st)) st, [])
      end
  end.

Fixpoint dual_run (evs : list DualEvent) (st : DualState)
  : option (DualState * list Action) :=
  match evs with
  | [] => Some (st, [])
  | ev :: evs' =>
      match dual_step st ev with
      | None => None
      | Some (st1, acts1) =>
          match dual_run evs' st1 with
          | None => None
          | Some (st2, acts2) => Some (st2, acts1 ++ acts2)
          end
      end
  end.

(** Bytes, as numbers that do not wrap. *)
Definition msgBytes (msg : Message) : Z :=
  fold_right (fun p acc => cap p + acc) 0 (Parts msg).

Definition stored (b : list Message) : Z :=
  fold_right (fun msg acc => msgBytes msg + acc) 0 b.

Definition acceptedBytes (acts : list Action) : Z :=
  fold_right (fun a acc =>
                match a with Accepted msg => msgBytes msg + acc | _ => acc end)
             0 acts.

(** *** Using the queue *)

(** A producer pushing one message after the other. *)
Definition pushAll (msgs : list Message) (m : Memory) : Memory :=
  fold_left (fun m msg => snd (pushMessage msg m)) msgs m.

(** A consumer taking up to [n] messages: peek at the head with
    [nextMessage], then drop it with [shiftMessage]; it stops at the
    first error. *)
Fixpoint drain (n : nat) (m : Memory) : list Message * Memory :=
  match n with
  | O => ([], m)
  | S n' =>
      let '((msg, err), m1) := nextMessage m in
      match err, msg with
      | None, Some x =>
          let '(_, m2) := shiftMessage m1 in
          let '(out, m3) := drain n' m2 in
          (x :: out, m3)
      | _, _ => ([], m1)
      end
  end.

(** Any sequence of calls of the three queue methods. *)
Inductive Op := Push (msg : Message) | Next | Shift.

Definition apply_op (m : Memory) (op : Op) : Memory :=
  match op with
  | Push msg => snd (pushMessage msg m)
  | Next => snd (nextMessage m)
  | Shift => snd (shiftMessage m)
  end.

Definition run_ops (ops : list Op) (m : Memory) : Memory :=
  fold_left apply_op ops m.

(** A buffer set up the way the loops need it: made, then given its
    input channel, then its response channel (which starts the two
    goroutines). *)
Definition started (limit : Z) (msgs responses : chan) : Memory :=
  snd (StartListening (Some responses)
         (snd (StartReceiving (Some msgs) (NewMemory limit)))).

(** In the two-goroutine variant: does an accepted message still wait
    for its response?  Either [inputLoop] is between the receive and
    the response, or it has put the response off. *)
Definition outstanding (st : DualState) : bool :=
  match in_pc st with
  | InPush _ | InSendNow => true
  | _ => responsePending st
  end.

(** Bytes [inputLoop] has received and not yet pushed. *)
Definition pendingBytes (pc : InPC) : Z :=
  match pc with
  | InPush msg => msgBytes msg
  | _ => 0
  end.

(** [inputLoop] has passed the limit check and not yet received. *)
Definition cleared (pc : InPC) : bool :=
  match pc with
  | InSendPending | InRecv => true
  | _ => false
  end.

(** *** Invariants of the two goroutines *)

(** What [inputLoop]'s program counter says about its local flag. *)
Definition flag_agrees (st : DualState) : Prop :=
  match in_pc st with
  | InRecv | InPush _ | InSendNow => responsePending st = false
  | InSendPending => responsePending st = true
  | _ => True
  end.

(** What holds between the steps, as long as the bytes accepted so far
    ([budget]) are representable: [used] follows the queue; queue and
    the message in hand are within the budget; and once [inputLoop] has
    passed the limit check, [used] stays within [limit] until the
    receive. *)
Definition within (budget : Z) (st : DualState) : Prop :=
  used (shared st) = GoInt.wrap (stored (buffer (shared st))) /\
  stored (buffer (shared st)) + pendingBytes (in_pc st) <= budget /\
  (cleared (in_pc st) = true -> used (shared st) <= limit (shared st)).

(** *** Reading a trace of actions *)

(** Accepts and responses must alternate, an accept first: [pending]
    says whether an accepted message still waits for its response.
    [None] when a response has no accept to answer, or a message is
    accepted while the previous one still waits. *)
Fixpoint answer (pending : bool) (acts : list Action) : option bool :=
  match acts with
  | [] => Some pending
  | Accepted _ :: rest => if pending then None else answer true rest
  | Responded _ :: rest => if pending then answer false rest else None
  | _ :: rest => answer pending rest
  end.

Definition is_accept (a : Action) : bool :=
  match a with Accepted _ => true | _ => false end.
Definition is_response (a : Action) : bool :=
  match a with Responded _ => true | _ => false end.

Definition owed (pending : bool) : nat :=
  if pending then 1%nat else 0%nat.

Definition accepts (acts : list Action) : nat :=
  length (List.filter is_accept acts).
Definition responses (acts : list Action) : nat :=
  length (List.filter is_response acts).

(** *** More ways to read a run *)

(** The messages a trace accepted, and the ones it forwarded, in order. *)
Fixpoint acceptedMsgs (acts : list Action) : list Message :=
  match acts with
  | [] => []
  | Accepted msg :: rest => msg :: acceptedMsgs rest
  | _ :: rest => acceptedMsgs rest
  end.

Definition is_forward (a : Action) : bool :=
  match a with Forwarded _ => true | _ => false end.

Definition forwards (acts : list Action) : nat :=
  length (List.filter is_forward acts).

(** A response that reports success: [res.Error() == nil]. *)
Definition is_ok (x : option Response) : bool :=
  match x with
  | Some res => match Error res with None => true | Some _ => false end
  | None => false
  end.

(** The success responses a schedule of the unified loop hands in, and
    all the receives from [responsesIn] it holds. *)
Definition okResponses (evs : list Event) : nat :=
  length (List.filter
            (fun ev => match ev with RecvResponse x => is_ok x | _ => false end)
            evs).

Definition answers (evs : list Event) : nat :=
  length (List.filter
            (fun ev => match ev with RecvResponse _ => true | _ => false end)
            evs).

(** The same for a schedule of the two goroutines. *)
Definition okResponsesDual (evs : list DualEvent) : nat :=
  length (List.filter
            (fun ev => match ev with OutReceive x => is_ok x | _ => false end)
            evs).

Definition answersDual (evs : list DualEvent) : nat :=
  length (List.filter
            (fun ev => match ev with OutReceive _ => true | _ => false end)
            evs).

(** The message [inputLoop] has received and not yet pushed. *)
Definition inHand (pc : InPC) : list Message :=
  match pc with
  | InPush msg => [msg]
  | _ => []
  end.

(** The size of the newest message in the queue. *)
Definition lastBytes (b : list Message) : Z :=
  match last b with
  | Some msg => msgBytes msg
  | None => 0
  end.

(** Goroutines that have not yet called [closedWG.Done()]. *)
Definition live (st : DualState) : Z :=
  (match in_pc st with InDone => 0 | _ => 1 end)
  + (match out_pc st with OutDone => 0 | _ => 1 end).

(** [inputLoop] can still reach its receive without passing the loop
    condition again. *)
Definition may_accept (pc : InPC) : bool :=
  match pc with
  | InCheckLimit | InSendPending | InRecv => true
  | _ => false
  end.

(** [outputLoop] can still reach its send without passing the loop
    condition again. *)
Definition may_forward (pc : OutPC) : bool :=
  match pc with
  | OutFetch | OutSend => true
  | _ => false
  end.

(** Channel discipline.  In Go, closing a closed channel panics, and so
    does sending on one.  [closed] tells which of the agent's channels
    have been closed so far; the result says whether the trace closes
    each channel at most once and sends nothing on it afterwards. *)
Definition own_chan_eqb (a b : own_chan) : bool :=
  match a, b with
  | MessagesOut, MessagesOut => true
  | ResponsesOut, ResponsesOut => true
  | ErrorsChan, ErrorsChan => true
  | _, _ => false
  end.

Definition chan_of (a : Action) : option own_chan :=
  match a with
  | Responded _ => Some ResponsesOut
  | Forwarded _ => Some MessagesOut
  | Reported _ => Some ErrorsChan
  | _ => None
  end.

Fixpoint disciplined (closed : own_chan -> bool) (acts : list Action) : bool :=
  match acts with
  | [] => true
  | Closed c :: rest =>
      negb (closed c)
      && disciplined (fun c' => own_chan_eqb c c' || closed c') rest
  | a :: rest =>
      match chan_of a with
      | Some c => negb (closed c)
      | None => true
      end && disciplined closed rest
  end.

(** The channels the two goroutines have closed, by where they are. *)
Definition closed_by (st : DualState) (c : own_chan) : bool :=
  match c with
  | ResponsesOut => match in_pc st with InDone => true | _ => false end
  | _ => match out_pc st with OutDone => true | _ => false end
  end.

(** *** Bounds on the memory in use *)

(** [used] follows a queue whose bytes are within [budget], and it is
    above [limit] by no more than the newest message. *)
Definition bounded (budget : Z) (m : Memory) : Prop :=
  used m = GoInt.wrap (stored (buffer m)) /\
  stored (buffer m) <= budget /\
  used m <= limit m + lastBytes (buffer m).

(** [inputLoop] is past the limit check and has not pushed yet. *)
Definition committed (pc : InPC) : bool :=
  match pc with
  | InSendPending | InRecv | InPush _ => true
  | _ => false
  end.

(** The same for the two goroutines: the message in hand counts towards
    the budget, and [used] is within [limit] from the limit check to the
    push. *)
Definition bounded_dual (budget : Z) (st : DualState) : Prop :=
  used (shared st) = GoInt.wrap (stored (buffer (shared st))) /\
  stored (buffer (shared st)) + pendingBytes (in_pc st) <= budget /\
  (committed (in_pc st) = true -> used (shared st) <= limit (shared st)) /\
  used (shared st) <= limit (shared st) + lastBytes (buffer (shared st)).

(** Nothing queued, nothing counted, and a limit below zero. *)
Definition starved (m : Memory) : Prop :=
  buffer m = [] /\ used m = 0 /\ limit m < 0.

(** *** Where the goroutines stand *)

(** [outputLoop] has its success response and has not shifted yet. *)
Definition shifting (pc : OutPC) : nat :=
  match pc with OutShift => 1%nat | _ => 0%nat end.

(** [outputLoop] has sent a message and waits for the response. *)
Definition waiting (pc : OutPC) : nat :=
  match pc with OutRecvRes => 1%nat | _ => 0%nat end.

(** [inputLoop] is at a place it can be in without ever having passed
    the limit check. *)
Definition idle (pc : InPC) : bool :=
  match pc with
  | InLoopCond | InCheckLimit | InSleep | InClosing | InDone => true
  | _ => false
  end.

(** The message [outputLoop] holds is the head of the queue, and it
    holds none when it is about to shift. *)
Definition holds_head (st : DualState) : Prop :=
  (forall x, out_msg st = Some x -> exists rest, buffer (shared st) = x :: rest)
  /\ (out_pc st = OutShift -> out_msg st = None).

End Buffer.

(** ** The fallback router *)

Module Fallback.

(** The cause a sink gives when it rejects. *)
Definition error := string.

(** A message part: a blob and its metadata. *)
Record Part := mkPart { data : string; metadata : gmap string string }.

Definition Message := list Part.

(** An acknowledgement: accepted (nil error) or rejected with a cause. *)
Inductive Response := accepted | rejected (e : error).

(** What one attempt at one target came to. *)
Inductive Outcome :=
| Filtered              (* the chain left no part: nothing to deliver *)
| Delivered             (* the sink accepted *)
| Failed (e : error).   (* the sink rejected *)

Definition succeeded (o : Outcome) : bool :=
  match o with Failed _ => false | _ => true end.

Section Router.

(** Whatever the processors and sinks act on: counters, files, ... *)
Context {W : Type}.

(** Modelled from the spec: a fallback target (the output type and
    its constructor are not among the sources): a transformation
    chain and the sink's capability "accept one message, return
    success or failure". *)
Record Target := mkTarget {
  chain : Message -> W -> Message * W;
  attempt : Message -> W -> option error * W
}.

(** Step 2 of the algorithm: a copy of parts and metadata. *)
Definition copy (msg : Message) : Message :=
  map (fun p => mkPart (data p) (metadata p)) msg.

(** Modelled from the spec: steps 2 to 4 of the router's algorithm
    for one target (the router's code is not among the sources). *)
Definition try_target (t : Target) (orig : Message) (w : W)
  : Outcome * W :=
  let '(processed, w1) := chain t (copy orig) w in
  match processed with
  | [] => (Filtered, w1)
  | _ :: _ =>
      let '(r, w2) := attempt t processed w1 in
      (match r with None => Delivered | Some e => Failed e end, w2)
  end.

(** Modelled from the spec: the router's algorithm per inbound
    transaction (its code is not among the sources), from target [i]
    on, [t] being target [i] and [rest] the targets after it.  The
    result is the list of attempts made (target index and outcome),
    the acknowledgement sent upstream, and the world afterwards. *)
Fixpoint route_from (i : nat) (t : Target) (rest : list Target)
    (orig : Message) (w : W) : list (nat * Outcome) * Response * W :=
  let '(o, w1) := try_target t orig w in
  match o with
  | Failed e =>
      match rest with
      | [] => ([(i, o)], rejected e, w1)
      | t' :: rest' =>
          let '(log, res, w2) := route_from (S i) t' rest' orig w1 in
          ((i, o) :: log, res, w2)
      end
  | _ => ([(i, o)], accepted, w1)
  end.

(** Modelled from the spec: a router holds N >= 1 targets in the
    configured order; no router is made of an empty list. *)
Record Router := mkRouter { first : Target; others : list Target }.

Definition NewFallback (targets : list Target) : option Router :=
  match targets with
  | [] => None
  | t :: rest => Some (mkRouter t rest)
  end.

Definition targets_of (r : Router) : list Target := first r :: others r.

Definition route (r : Router) (orig : Message) (w : W)
  : list (nat * Outcome) * Response * W :=
  route_from 0 (first r) (others r) orig w.

(** A stream of transactions, one after the other. *)
Fixpoint route_all (r : Router) (msgs : list Message) (w : W)
  : list (list (nat * Outcome) * Response) * W :=
  match msgs with
  | [] => ([], w)
  | msg :: msgs' =>
      let '(log, res, w1) := route r msg w in
      let '(out, w2) := route_all r msgs' w1 in
      ((log, res) :: out, w2)
  end.

(** A target whose sink always rejects with [e], and one whose sink
    takes everything; neither has processors. *)
Definition failing (e : error) : Target :=
  {| chain := fun msg w => (msg, w); attempt := fun _ w => (Some e, w) |}.

Definition sinking : Target :=
  {| chain := fun msg w => (msg, w); attempt := fun _ w => (None, w) |}.

(** A target rejects [orig] with [e], whatever the world is like. *)
Definition rejects (orig : Message) (t : Target) (e : error) : Prop :=
  forall w, fst (try_target t orig w) = Failed e.

(** A target accepts [orig], whatever the world is like. *)
Definition accepts (orig : Message) (t : Target) : Prop :=
  forall w, succeeded (fst (try_target t orig w)) = true.

End Router.

Arguments Target : clear implicits.
Arguments Router : clear implicits.

(** *** The scenario of [TestFallbackOutputBasic]

    The test configures three outputs with one "text" processor each;
    the processors and outputs themselves are not among the sources, so
    they are rendered here by what the test expects of them: an HTTP
    client that cannot connect, a writer of one file per message, and a
    writer to /dev/null. *)

(** Named counters and the files written so far. *)
Record World := mkWorld {
  counters : gmap string nat;
  files : gmap string string
}.

Definition world0 : World := {| counters := ∅; files := ∅ |}.

(** The interpolation function [count(name)]: the next integer. *)
Definition count (name : string) (w : World) : nat * World :=
  let n := S (default 0%nat (counters w !! name)) in
  (n, {| counters := <[name := n]> (counters w); files := files w |}).

(** The "text" processor with operator "prepend". *)
Definition prepend (prefix : string) (msg : Message) : Message :=
  map (fun p => mkPart (prefix +:+ data p) (metadata p)) msg.

(** outOne: an HTTP client on a bad URL, after a processor whose value
    interpolates [count("fallbacktofoo")]. *)
Definition outOne : Target World :=
  {| chain := fun msg w =>
       let '(n, w1) := count "fallbacktofoo" w in
       (prepend ("this-should-never-appear " +:+ pretty n) msg, w1);
     attempt := fun _ w => (Some "connection refused", w) |}.

(** outTwo: one file per message, its path interpolating both counters,
    after a processor that prepends "two-". *)
Definition outTwo : Target World :=
  {| chain := fun msg w => (prepend "two-" msg, w);
     attempt := fun msg w =>
       let '(a, w1) := count "fallbacktofoo" w in
       let '(b, w2) := count "fallbacktobar" w1 in
       let path := "./two/bar-" +:+ pretty a +:+ "-" +:+ pretty b +:+ ".txt" in
       (None,
        {| counters := counters w2;
           files := <[path := String.concat "" (map data msg)]> (files w2) |}) |}.

(** outThree: /dev/null, after a processor whose value interpolates
    [count("fallbacktobar")]. *)
Definition outThree : Target World :=
  {| chain := fun msg w =>
       let '(n, w1) := count "fallbacktobar" w in
       (prepend ("this-should-never-appear " +:+ pretty n) msg, w1);
     attempt := fun _ w => (None, w) |}.

Definition inputs : list Message :=
  map (fun s => [mkPart s ∅]) ["first"; "second"; "third"; "fourth"].

Definition expFiles : list (string * string) :=
  [("./two/bar-2-1.txt", "two-first");
   ("./two/bar-4-2.txt", "two-second");
   ("./two/bar-6-3.txt", "two-third");
   ("./two/bar-8-4.txt", "two-fourth")].

End Fallback.

(** ** The stream manager's HTTP API *)

Module Manager.

Section Streams.

(** [stream.Config], and what the handler notes of a running stream. *)
Context {Config Info : Type}.

(** What [HandleStreamsCRUD] decides to do on a POST, from the streams
    that exist ([infos]) and the posted set ([newSet]).  Go ranges over a
    map in no fixed order; the order of [map_to_list] stands for the one
    an execution happens to take. *)
Record Plan := mkPlan {
  toDelete : list string;
  toUpdate : gmap string Config;
  toCreate : gmap string Config
}.

(** [for id := range infos { ... }] *)
Definition sort_existing (newSet : gmap string Config)
    (acc : list string * gmap string Config) (id : string)
  : list string * gmap string Config :=
  match newSet !! id with
  | None => (fst acc ++ [id], snd acc)
  | Some newConf => (fst acc, <[id := newConf]> (snd acc))
  end.

(** [for id, conf := range newSet { ... }] *)
Definition sort_posted (infos : gmap string Info)
    (acc : gmap string Config) (entry : string * Config)
  : gmap string Config :=
  match infos !! fst entry with
  | None => <[fst entry := snd entry]> acc
  | Some _ => acc
  end.

Definition plan (infos : gmap string Info) (newSet : gmap string Config)
  : Plan :=
  let existing :=
    fold_left (sort_existing newSet) (map_to_list infos).*1 ([], ∅) in
  let created := fold_left (sort_posted infos) (map_to_list newSet) ∅ in
  {| toDelete := fst existing; toUpdate := snd existing;
     toCreate := created |}.

End Streams.

(** [strings.Join]. *)
Fixpoint Join (elems : list string) (sep : string) : string :=
  match elems with
  | [] => ""
  | [x] => x
  | x :: rest => x +:+ sep +:+ Join rest sep
  end.

(** What a handler has written: the status code and the body. *)
Record Reply := mkReply { status : Z; body : string }.

Definition StatusOK : Z := 200.
Definition StatusServiceUnavailable : Z := 503.

Definition newline : string := String (Ascii.ascii_of_nat 10) EmptyString.

(** [HandleStreamReady], given what [IsReady] says of each stream. *)
Definition HandleStreamReady (streams : gmap string bool) : Reply :=
  let notReady :=
    fold_left (fun notReady entry =>
                 if negb (snd entry) then notReady ++ [fst entry]
                 else notReady)
              (map_to_list streams) [] in
  match notReady with
  | [] => {| status := StatusOK; body := "OK" |}
  | _ :: _ =>
      {| status := StatusServiceUnavailable;
         body := "streams " +:+ Join notReady ", "
                 +:+ " are not connected" +:+ newline |}
  end.

End Manager.

(** * Properties *)

Import Buffer.

(** ** Arithmetic of [GoInt] *)

Section GoIntFacts.

Import GoInt.

Lemma wrap_in_range z : in_range z -> wrap z = z.
Proof.
  unfold in_range, wrap, min_int, max_int. intros Hz.
  rewrite Z.mod_small; lia.
Qed.

Lemma wrap_plus_l a b : wrap (wrap a + b) = wrap (a + b).
Proof.
  unfold wrap.
  replace ((a + 2 ^ 63) mod 2 ^ 64 - 2 ^ 63 + b + 2 ^ 63)
    with ((a + 2 ^ 63) mod 2 ^ 64 + b) by lia.
  rewrite Zplus_mod_idemp_l. f_equal. f_equal. lia.
Qed.

Lemma wrap_plus_r a b : wrap (a + wrap b) = wrap (a + b).
Proof. rewrite (Z.add_comm a), wrap_plus_l. f_equal. lia. Qed.

Lemma wrap_minus_l a b : wrap (wrap a - b) = wrap (a - b).
Proof.
  replace (wrap a - b) with (wrap a + - b) by lia.
  rewrite wrap_plus_l. f_equal; lia.
Qed.

Lemma wrap_minus_r a b : wrap (a - wrap b) = wrap (a - b).
Proof.
  unfold wrap.
  replace (a - ((b + 2 ^ 63) mod 2 ^ 64 - 2 ^ 63) + 2 ^ 63)
    with ((a + 2 ^ 63 + 2 ^ 63) - (b + 2 ^ 63) mod 2 ^ 64) by lia.
  rewrite Zminus_mod_idemp_r. f_equal. f_equal. lia.
Qed.

End GoIntFacts.

(** ** Sizes *)

Section Sizes.

Lemma cap_nonneg s : 0 <= cap s.
Proof. unfold cap, len. lia. Qed.

Lemma msgBytes_nonneg msg : 0 <= msgBytes msg.
Proof.
  unfold msgBytes. induction (Parts msg) as [|p ps IH]; simpl; [lia|].
  pose proof (cap_nonneg p). lia.
Qed.

Lemma stored_nonneg b : 0 <= stored b.
Proof.
  induction b as [|msg b IH]; simpl; [lia|].
  pose proof (msgBytes_nonneg msg). lia.
Qed.

Lemma stored_app b1 b2 : stored (b1 ++ b2) = stored b1 + stored b2.
Proof. induction b1 as [|msg b1 IH]; simpl; lia. Qed.

Lemma size_loop ps a :
  fold_left (fun size p => GoInt.add size (cap p)) ps (GoInt.wrap a)
  = GoInt.wrap (a + fold_right (fun p acc => cap p + acc) 0 ps).
Proof.
  revert a. induction ps as [|p ps IH]; intros a; simpl.
  - f_equal. lia.
  - unfold GoInt.add at 2. rewrite wrap_plus_l, IH. f_equal. lia.
Qed.

(** The size the code computes is the sum of the capacities, wrapped. *)
Lemma messageSize_wrap msg : messageSize msg = GoInt.wrap (msgBytes msg).
Proof.
  unfold messageSize, msgBytes.
  change 0 with (GoInt.wrap 0) at 1. rewrite size_loop. f_equal.
Qed.

End Sizes.

(** ** The queue *)

Section Queue.

Lemma pushMessage_buffer msg m :
  buffer (snd (pushMessage msg m)) = buffer m ++ [msg].
Proof. reflexivity. Qed.

Lemma pushAll_buffer msgs : forall m,
  buffer (pushAll msgs m) = buffer m ++ msgs.
Proof.
  induction msgs as [|msg msgs IH]; intros m; simpl.
  - by rewrite app_nil_r.
  - unfold pushAll in *. simpl. rewrite IH. simpl.
    by rewrite <- app_assoc.
Qed.

Lemma drain_buffer n : forall m,
  fst (drain n m) = firstn n (buffer m) /\
  buffer (snd (drain n m)) = skipn n (buffer m).
Proof.
  induction n as [|n IH]; intros m; simpl; [done|].
  unfold nextMessage, shiftMessage.
  destruct (buffer m) as [|msg rest] eqn:Hb; simpl.
  - by rewrite Hb.
  - rewrite Hb.
    specialize (IH (set_queue rest (GoInt.sub (used m) (messageSize msg)) m)).
    destruct (drain n _) as [out m3]. simpl in *.
    destruct IH as [IH1 IH2]. by rewrite IH1.
Qed.

Lemma push_tracks msg m :
  used m = GoInt.wrap (stored (buffer m)) ->
  used (snd (pushMessage msg m))
  = GoInt.wrap (stored (buffer (snd (pushMessage msg m)))).
Proof.
  intros Hm. unfold pushMessage. cbn [snd set_queue buffer used].
  rewrite stored_app. cbn [stored fold_right]. unfold GoInt.add.
  rewrite Hm, messageSize_wrap, wrap_plus_l, wrap_plus_r.
  f_equal; lia.
Qed.

Lemma push_stored msg m :
  stored (buffer (snd (pushMessage msg m)))
  = stored (buffer m) + msgBytes msg.
Proof.
  unfold pushMessage. cbn [snd set_queue buffer].
  rewrite stored_app. cbn [stored fold_right]. lia.
Qed.

Lemma push_limit msg m : limit (snd (pushMessage msg m)) = limit m.
Proof. reflexivity. Qed.

Lemma shift_tracks m :
  used m = GoInt.wrap (stored (buffer m)) ->
  used (snd (shiftMessage m))
  = GoInt.wrap (stored (buffer (snd (shiftMessage m)))).
Proof.
  intros Hm. unfold shiftMessage.
  destruct (buffer m) as [|msg rest] eqn:Hb; cbn [snd set_queue buffer used].
  - rewrite Hb. exact Hm.
  - unfold GoInt.sub. rewrite Hm, messageSize_wrap.
    rewrite wrap_minus_l, wrap_minus_r. cbn [stored fold_right].
    f_equal. fold (stored rest). lia.
Qed.

Lemma shift_stored m :
  0 <= stored (buffer (snd (shiftMessage m))) <= stored (buffer m).
Proof.
  unfold shiftMessage.
  destruct (buffer m) as [|msg rest] eqn:Hb; cbn [snd set_queue buffer].
  - rewrite Hb. cbn. lia.
  - cbn [stored fold_right]. fold (stored rest).
    pose proof (stored_nonneg rest). pose proof (msgBytes_nonneg msg). lia.
Qed.

Lemma shift_limit m : limit (snd (shiftMessage m)) = limit m.
Proof. unfold shiftMessage. by destruct (buffer m). Qed.

(** Without overflow, dropping the head never raises [used]. *)
Lemma shift_used_le m :
  used m = GoInt.wrap (stored (buffer m)) ->
  stored (buffer m) <= GoInt.max_int ->
  used (snd (shiftMessage m)) <= used m.
Proof.
  intros Hm Hfit. rewrite (shift_tracks m Hm), Hm.
  pose proof (shift_stored m) as [H0 H1].
  pose proof (stored_nonneg (buffer m)).
  rewrite !wrap_in_range; unfold GoInt.in_range, GoInt.min_int; lia.
Qed.

(** The counter follows the queue, in Go's arithmetic. *)
Lemma used_tracks_stored ops : forall m,
  used m = GoInt.wrap (stored (buffer m)) ->
  used (run_ops ops m) = GoInt.wrap (stored (buffer (run_ops ops m))).
Proof.
  unfold run_ops.
  induction ops as [|op ops IH]; intros m Hm; cbn [fold_left]; [done|].
  apply IH. destruct op as [msg| |]; cbn [apply_op].
  - by apply push_tracks.
  - unfold nextMessage.
    destruct (buffer m) eqn:Hb; cbn [snd]; rewrite Hb; exact Hm.
  - by apply shift_tracks.
Qed.

(** C1 (FIFO).  Messages pushed one after the other, with nothing
    consumed in between, come out of repeated [nextMessage] and
    [shiftMessage] in exactly the order they went in: taking [n]
    messages returns the first [n] entries of the queue (what was there
    before, then the pushed ones, in push order) and leaves exactly the
    remaining ones, in order; so only the head is ever removed and
    nothing is reordered.  From a new buffer, taking as many as were
    pushed returns precisely the pushed sequence and empties the
    queue. *)
Theorem fifo_order (m : Memory) (msgs : list Message) (n : nat) (limit : Z) :
  fst (drain n (pushAll msgs m)) = firstn n (buffer m ++ msgs) /\
  buffer (snd (drain n (pushAll msgs m))) = skipn n (buffer m ++ msgs) /\
  fst (drain (length msgs) (pushAll msgs (NewMemory limit))) = msgs /\
  buffer (snd (drain (length msgs) (pushAll msgs (NewMemory limit)))) = [].
Proof.
  pose proof (drain_buffer n (pushAll msgs m)) as [H1 H2].
  pose proof (drain_buffer (length msgs) (pushAll msgs (NewMemory limit)))
    as [H3 H4].
  rewrite pushAll_buffer in *. cbn [NewMemory buffer app] in *.
  rewrite firstn_all in H3. rewrite skipn_all in H4. done.
Qed.

(** C2 (conservation), as the code has it.  In every state reached from
    [NewMemory] by any sequence of [pushMessage], [nextMessage] and
    [shiftMessage] calls, [used] is the sum of the capacities of the
    parts of the stored messages, taken in Go's [int] arithmetic, which
    wraps around; as long as that sum is representable as an [int],
    [used] is that very sum and is not negative. *)
Theorem used_conservation (limit : Z) (ops : list Op) :
  let m := run_ops ops (NewMemory limit) in
  used m = GoInt.wrap (stored (buffer m)) /\
  (stored (buffer m) <= GoInt.max_int ->
   used m = stored (buffer m) /\ 0 <= used m).
Proof.
  intros m.
  assert (Hw : used m = GoInt.wrap (stored (buffer m))).
  { apply used_tracks_stored. reflexivity. }
  split; [exact Hw|]. intros Hfit.
  pose proof (stored_nonneg (buffer m)) as Hpos.
  rewrite Hw, wrap_in_range; [lia|].
  unfold GoInt.in_range, GoInt.min_int. lia.
Qed.

Lemma used_conservation_witness :
  let m := run_ops [Push (mkMessage [mkSlice [] 5; mkSlice [] 2]); Next;
                    Push (mkMessage [mkSlice [] 4]); Shift]
                   (NewMemory 10) in
  stored (buffer m) <= GoInt.max_int /\
  used m = stored (buffer m) /\ 0 <= used m.
Proof.
  intros m.
  assert (Hfit : stored (buffer m) <= GoInt.max_int)
    by (vm_compute; discriminate).
  split; [exact Hfit|].
  exact (proj2 (used_conservation 10 _) Hfit).
Defined.

(** C2 as stated fails: nothing in [pushMessage] guards the addition
    against overflow.  Two messages of one part each, of capacity 2^62,
    are pushed on a new buffer; their sizes sum to 2^63, one more than
    the largest [int], and [used] has wrapped around to -2^63: it is
    negative, and it is not the sum of the stored sizes. *)
Lemma used_wraps_around :
  let big := mkMessage [mkSlice [] (2 ^ 62)] in
  let m := run_ops [Push big; Push big] (NewMemory 10) in
  buffer m = [big; big] /\
  stored (buffer m) = 2 ^ 63 /\
  used m = - 2 ^ 63 /\
  used m <> stored (buffer m) /\
  used m < 0.
Proof. vm_compute. repeat split; discriminate. Qed.

(** C3 (push).  [pushMessage] computes the size of the message as the
    sum of the capacities of its parts, appends the message at the tail
    of the queue, adds the size to [used] (Go's [int] addition: the
    exact sum whenever it is representable), and returns true exactly
    when [used], after the addition, is strictly above [limit]. *)
Theorem pushMessage_spec (msg : Message) (m : Memory) :
  let over := fst (pushMessage msg m) in
  let m' := snd (pushMessage msg m) in
  messageSize msg = GoInt.wrap (msgBytes msg) /\
  buffer m' = buffer m ++ [msg] /\
  used m' = GoInt.add (used m) (messageSize msg) /\
  (GoInt.in_range (used m + msgBytes msg) ->
   used m' = used m + msgBytes msg) /\
  (over = true <-> limit m < used m') /\
  limit m' = limit m.
Proof.
  cbn zeta. unfold pushMessage. cbn [fst snd set_queue buffer used limit].
  split; [apply messageSize_wrap|].
  split; [reflexivity|]. split; [reflexivity|].
  split; [|split; [apply Z.ltb_lt | reflexivity]].
  intros Hr. unfold GoInt.add.
  rewrite messageSize_wrap, wrap_plus_r. by apply wrap_in_range.
Qed.

Lemma pushMessage_spec_witness :
  let m := NewMemory 3 in
  let msg := mkMessage [mkSlice [] 2; mkSlice [] 2] in
  GoInt.in_range (used m + msgBytes msg) /\
  used (snd (pushMessage msg m)) = used m + msgBytes msg /\
  fst (pushMessage msg m) = true.
Proof.
  intros m msg.
  assert (Hr : GoInt.in_range (used m + msgBytes msg))
    by (split; vm_compute; discriminate).
  split; [exact Hr|].
  destruct (pushMessage_spec msg m) as (_ & _ & _ & Hsum & Hover & _).
  split; [exact (Hsum Hr)|].
  apply Hover. vm_compute. reflexivity.
Defined.

(** C9 (empty queue).  [nextMessage] returns [ErrOutOfBounds] exactly
    when the queue is empty and otherwise the head with no error; either
    way the state (queue and [used] included) is what it was; and
    [shiftMessage] on an empty queue changes nothing. *)
Theorem nextMessage_spec (m : Memory) :
  (snd (fst (nextMessage m)) = Some ErrOutOfBounds <-> buffer m = []) /\
  (buffer m = [] -> fst (nextMessage m) = (None, Some ErrOutOfBounds)) /\
  (forall msg rest, buffer m = msg :: rest ->
     fst (nextMessage m) = (Some msg, None)) /\
  snd (nextMessage m) = m /\
  (buffer m = [] -> snd (shiftMessage m) = m).
Proof.
  unfold nextMessage, shiftMessage.
  destruct (buffer m) as [|msg rest]; cbn [fst snd];
    repeat split; try done; intros; simplify_eq; done.
Qed.

Lemma nextMessage_spec_witness :
  fst (nextMessage (NewMemory 7)) = (None, Some ErrOutOfBounds) /\
  snd (shiftMessage (NewMemory 7)) = NewMemory 7 /\
  fst (nextMessage (snd (pushMessage (mkMessage [mkSlice [] 1]) (NewMemory 7))))
  = (Some (mkMessage [mkSlice [] 1]), None).
Proof.
  destruct (nextMessage_spec (NewMemory 7)) as (_ & Hnil & _ & _ & Hshift).
  destruct (nextMessage_spec
              (snd (pushMessage (mkMessage [mkSlice [] 1]) (NewMemory 7))))
    as (_ & _ & Hhead & _).
  split; [apply Hnil; reflexivity|].
  split; [apply Hshift; reflexivity|].
  apply (Hhead _ []). reflexivity.
Defined.

End Queue.

(** ** Starting the agent *)

Section Start.

(** C10 (second start).  Once an input channel is assigned, a further
    [StartReceiving] returns [ErrAlreadyStarted] and leaves the agent,
    the assigned channel included, as it was; likewise for
    [StartListening] and the response channel.  In particular this is
    so right after a first call that assigned a channel. *)
Theorem start_twice (m : Memory) (c : chan) (again : option chan) :
  (messagesIn m = Some c ->
     StartReceiving again m = (Some ErrAlreadyStarted, m)) /\
  (responsesIn m = Some c ->
     StartListening again m = (Some ErrAlreadyStarted, m)) /\
  (messagesIn m = None ->
     let m1 := snd (StartReceiving (Some c) m) in
     fst (StartReceiving (Some c) m) = None /\
     messagesIn m1 = Some c /\
     StartReceiving again m1 = (Some ErrAlreadyStarted, m1)) /\
  (responsesIn m = None ->
     let m1 := snd (StartListening (Some c) m) in
     fst (StartListening (Some c) m) = None /\
     responsesIn m1 = Some c /\
     StartListening again m1 = (Some ErrAlreadyStarted, m1)).
Proof.
  unfold StartReceiving, StartListening.
  split; [|split; [|split]]; intros H; rewrite H; cbn;
    try destruct (messagesIn m); repeat split.
Qed.

Lemma start_twice_witness :
  let m1 := snd (StartReceiving (Some 1%nat) (NewMemory 8)) in
  let m2 := snd (StartListening (Some 2%nat) m1) in
  messagesIn m1 = Some 1%nat /\
  StartReceiving (Some 3%nat) m1 = (Some ErrAlreadyStarted, m1) /\
  responsesIn m2 = Some 2%nat /\
  StartListening (Some 4%nat) m2 = (Some ErrAlreadyStarted, m2).
Proof.
  intros m1 m2.
  destruct (start_twice (NewMemory 8) 1%nat (Some 3%nat))
    as (_ & _ & Hrecv & _).
  destruct (start_twice m1 2%nat (Some 4%nat)) as (_ & _ & _ & Hlist).
  destruct (Hrecv eq_refl) as (_ & Hin & Hagain).
  destruct (Hlist eq_refl) as (_ & Hres & Hagain').
  repeat split; assumption.
Defined.

End Start.

(** ** Traces of accepts and responses *)

Section Traces.

Lemma answer_app a b : forall p,
  answer p (a ++ b) =
  match answer p a with Some p' => answer p' b | None => None end.
Proof.
  induction a as [|x a IH]; intros p; [reflexivity|].
  destruct x, p; cbn [app answer]; try apply IH; reflexivity.
Qed.

Lemma accepts_app a b : accepts (a ++ b) = (accepts a + accepts b)%nat.
Proof. unfold accepts. by rewrite List.filter_app, length_app. Qed.

Lemma responses_app a b :
  responses (a ++ b) = (responses a + responses b)%nat.
Proof. unfold responses. by rewrite List.filter_app, length_app. Qed.

(** In an alternating trace the accepts outnumber the responses by the
    one message still waiting, if any. *)
Lemma answer_counts acts : forall p q,
  answer p acts = Some q ->
  (accepts acts + owed p = responses acts + owed q)%nat.
Proof.
  induction acts as [|x acts IH]; intros p q H.
  - cbn in H. injection H as <-. reflexivity.
  - destruct x, p; cbn [answer] in H; try discriminate;
      apply IH in H; unfold accepts, responses in *;
      cbn [List.filter is_accept is_response length owed] in *; lia.
Qed.

End Traces.

(** ** The unified loop *)

Section UnifiedLoop.

Lemma prepare_inMsgChan st :
  inMsgChan (prepare st) =
  if negb (fst (limitReached (mem st))) then
    if responseOutPending st then None else messagesIn (mem st)
  else None.
Proof.
  unfold prepare.
  destruct (negb (responseInPending st)), (buffer (mem st)),
    (negb (fst (limitReached (mem st)))), (responseOutPending st);
    reflexivity.
Qed.

Lemma prepare_outResChan st :
  outResChan (prepare st) =
  if negb (fst (limitReached (mem st))) then
    if responseOutPending st then Some ResponsesOut else None
  else None.
Proof.
  unfold prepare.
  destruct (negb (responseInPending st)), (buffer (mem st)),
    (negb (fst (limitReached (mem st)))), (responseOutPending st);
    reflexivity.
Qed.

Lemma prepare_outMsgChan st :
  (outMsgChan (prepare st), nextMsg (prepare st)) =
  match negb (responseInPending st), buffer (mem st) with
  | true, head :: _ => (Some MessagesOut, head)
  | _, _ => (None, mkMessage [])
  end.
Proof.
  unfold prepare.
  destruct (negb (responseInPending st)), (buffer (mem st)),
    (negb (fst (limitReached (mem st)))), (responseOutPending st);
    reflexivity.
Qed.

Lemma prepare_errChan st :
  errChan (prepare st) =
  match errors st with [] => None | _ => Some ErrorsChan end.
Proof.
  unfold prepare.
  destruct (negb (responseInPending st)), (buffer (mem st)),
    (negb (fst (limitReached (mem st)))), (responseOutPending st);
    reflexivity.
Qed.

(** Receiving a message is a case of the [select] only under the limit
    and with no response owed. *)
Lemma recv_ready st x st' acts :
  loop_iter st (RecvMessage x) = Some (st', acts) ->
  fst (limitReached (mem st)) = false /\ responseOutPending st = false.
Proof.
  unfold loop_iter, select. rewrite prepare_inMsgChan.
  destruct (loop_running st); [|discriminate].
  destruct (fst (limitReached (mem st))), (responseOutPending st);
    cbn; try discriminate. done.
Qed.

(** Sending the response is a case only under the limit and with a
    response owed. *)
Lemma respond_ready st st' acts :
  loop_iter st SendResponse = Some (st', acts) ->
  fst (limitReached (mem st)) = false /\ responseOutPending st = true.
Proof.
  unfold loop_iter, select. rewrite prepare_outResChan.
  destruct (loop_running st); [|discriminate].
  destruct (fst (limitReached (mem st))), (responseOutPending st);
    cbn; try discriminate. done.
Qed.

Lemma loop_iter_answer st ev st' acts :
  loop_iter st ev = Some (st', acts) ->
  answer (responseOutPending st) acts = Some (responseOutPending st').
Proof.
  intros H. destruct ev as [x| | |x| |].
  - destruct (recv_ready _ _ _ _ H) as [_ Hp]. rewrite Hp.
    unfold loop_iter, select in H.
    destruct (loop_running st); [|discriminate].
    destruct (inMsgChan (prepare st)); [|discriminate].
    destruct x as [msg|]; cbn in H; injection H as <- <-; cbn; congruence.
  - destruct (respond_ready _ _ _ H) as [_ Hp]. rewrite Hp.
    unfold loop_iter, select in H.
    destruct (loop_running st); [|discriminate].
    destruct (outResChan (prepare st)); [|discriminate].
    injection H as <- <-. reflexivity.
  - unfold loop_iter, select in H.
    destruct (loop_running st); [|discriminate].
    destruct (outMsgChan (prepare st)); [|discriminate].
    injection H as <- <-. reflexivity.
  - unfold loop_iter, select in H.
    destruct (loop_running st); [|discriminate].
    destruct (responsesIn (mem st)); [|discriminate].
    injection H as <- <-.
    destruct x as [[[e|]]|]; reflexivity.
  - unfold loop_iter, select in H.
    destruct (loop_running st); [|discriminate].
    destruct (errChan (prepare st)); [|discriminate].
    injection H as <- <-. reflexivity.
  - unfold loop_iter, select in H.
    destruct (loop_running st); [|discriminate].
    injection H as <- <-. reflexivity.
Qed.

Lemma loop_run_answer evs : forall st st' acts,
  loop_run evs st = Some (st', acts) ->
  answer (responseOutPending st) acts = Some (responseOutPending st').
Proof.
  induction evs as [|ev evs IH]; intros st st' acts H; cbn in H.
  - injection H as <- <-. reflexivity.
  - destruct (loop_iter st ev) as [[st1 a1]|] eqn:H1; [|discriminate].
    destruct (loop_run evs st1) as [[st2 a2]|] eqn:H2; [|discriminate].
    injection H as <- <-.
    rewrite answer_app, (loop_iter_answer _ _ _ _ H1). by apply IH.
Qed.

Lemma loop_answer evs m st acts :
  loop evs m = Some (st, acts) ->
  answer false acts = Some (responseOutPending st).
Proof.
  unfold loop. intros H.
  destruct (loop_run evs (loop_init m)) as [[st1 a1]|] eqn:H1;
    [|discriminate].
  apply loop_run_answer in H1. cbn in H1.
  destruct (loop_running st1).
  - injection H as <- <-. exact H1.
  - cbn in H. injection H as <- <-. rewrite answer_app, H1. reflexivity.
Qed.

(** Every response the loop sends is the nil response. *)
Lemma loop_iter_responds_nil st ev st' acts res :
  loop_iter st ev = Some (st', acts) ->
  In (Responded res) acts -> Error res = None.
Proof.
  unfold loop_iter, select. intros H Hin.
  destruct (loop_running st); [|discriminate].
  destruct ev as [x| | |x| |].
  - destruct (inMsgChan (prepare st)); [|discriminate].
    destruct x; cbn in H; injection H as <- <-;
      cbn in Hin; intuition discriminate.
  - destruct (outResChan (prepare st)); [|discriminate].
    injection H as <- <-. cbn in Hin.
    destruct Hin as [Heq|[]]. by injection Heq as <-.
  - destruct (outMsgChan (prepare st)); [|discriminate].
    injection H as <- <-. cbn in Hin. intuition discriminate.
  - destruct (responsesIn (mem st)); [|discriminate].
    injection H as <- <-. destruct Hin.
  - destruct (errChan (prepare st)); [|discriminate].
    injection H as <- <-. cbn in Hin. intuition discriminate.
  - injection H as <- <-. destruct Hin.
Qed.

End UnifiedLoop.

(** ** The two goroutines *)

Section TwoLoops.

(** Case analysis on one step of the two goroutines. *)
Ltac step_cases H :=
  unfold dual_step, inputLoop, outputLoop, limitReached, nextMessage,
    shiftMessage, pushMessage in H;
  repeat match type of H with
         | context [match ?x with _ => _ end] =>
             destruct x eqn:?; try discriminate H
         end;
  injection H as <- <-.

Lemma dual_step_answer st ev st' acts :
  flag_agrees st ->
  dual_step st ev = Some (st', acts) ->
  flag_agrees st' /\
  answer (outstanding st) acts = Some (outstanding st').
Proof.
  unfold flag_agrees, outstanding. intros K H.
  destruct st as [m ipc rp opc om em es]. cbn in *.
  step_cases H; cbn in *; subst; try discriminate; split; try done;
    destruct rp; done.
Qed.

Lemma dual_run_answer evs : forall st st' acts,
  flag_agrees st ->
  dual_run evs st = Some (st', acts) ->
  flag_agrees st' /\
  answer (outstanding st) acts = Some (outstanding st').
Proof.
  induction evs as [|ev evs IH]; intros st st' acts K H; cbn in H.
  - injection H as <- <-. done.
  - destruct (dual_step st ev) as [[st1 a1]|] eqn:H1; [|discriminate].
    destruct (dual_run evs st1) as [[st2 a2]|] eqn:H2; [|discriminate].
    injection H as <- <-.
    destruct (dual_step_answer _ _ _ _ K H1) as [K1 A1].
    destruct (IH _ _ _ K1 H2) as [K2 A2].
    split; [exact K2|]. by rewrite answer_app, A1.
Qed.

(** Every response [inputLoop] sends is the nil response. *)
Lemma dual_step_responds_nil st ev st' acts res :
  dual_step st ev = Some (st', acts) ->
  In (Responded res) acts -> Error res = None.
Proof.
  intros H Hin. step_cases H; cbn in Hin;
    repeat match goal with
           | Hin : _ \/ _ |- _ => destruct Hin as [Hin|Hin]
           | Hin : False |- _ => destruct Hin
           end;
    try discriminate; by injection Hin as <-.
Qed.

(** A run, one step at its end. *)
Lemma dual_run_snoc evs ev : forall st,
  dual_run (evs ++ [ev]) st =
  match dual_run evs st with
  | None => None
  | Some (st1, a1) =>
      match dual_step st1 ev with
      | None => None
      | Some (st2, a2) => Some (st2, a1 ++ a2)
      end
  end.
Proof.
  induction evs as [|e evs IH]; intros st; cbn [app dual_run].
  - destruct (dual_step st ev) as [[st2 a2]|]; [|reflexivity].
    by rewrite app_nil_r.
  - destruct (dual_step st e) as [[st1 a1]|]; [|reflexivity].
    rewrite IH. destruct (dual_run evs st1) as [[st2 a2]|]; [|reflexivity].
    destruct (dual_step st2 ev) as [[st3 a3]|]; [|reflexivity].
    by rewrite app_assoc.
Qed.

Lemma acceptedBytes_app a b :
  acceptedBytes (a ++ b) = acceptedBytes a + acceptedBytes b.
Proof.
  unfold acceptedBytes.
  induction a as [|x a IH]; cbn [app fold_right]; [lia|].
  destruct x; lia.
Qed.

Lemma pendingBytes_nonneg pc : 0 <= pendingBytes pc.
Proof. destruct pc; cbn; try lia. apply msgBytes_nonneg. Qed.

Lemma acceptedBytes_nonneg a : 0 <= acceptedBytes a.
Proof.
  unfold acceptedBytes.
  induction a as [|x a IH]; cbn [fold_right]; [lia|].
  destruct x; try lia.
  pose proof (msgBytes_nonneg msg). lia.
Qed.

(** Case analysis on one step, the queue methods kept whole. *)
Ltac step_cases_mem H :=
  unfold dual_step, inputLoop, outputLoop, limitReached, nextMessage in H;
  repeat match type of H with
         | context [match ?x with _ => _ end] =>
             destruct x eqn:?; try discriminate H
         end;
  repeat match goal with
         | E : context [match ?x with _ => _ end] |- _ =>
             destruct x eqn:?; try discriminate E
         end;
  repeat match goal with
         | E : pushMessage ?msg ?m = (_, ?m') |- _ =>
             assert (m' = snd (pushMessage msg m)) by (by rewrite E);
             clear E; subst m'
         | E : shiftMessage ?m = (_, ?m') |- _ =>
             assert (m' = snd (shiftMessage m)) by (by rewrite E);
             clear E; subst m'
         end;
  simplify_eq.

Ltac step_simpl :=
  cbn [shared in_pc out_pc in_goto out_goto cleared pendingBytes
       acceptedBytes fold_right set_running spawn_done CloseAsync
       used buffer limit] in *.

Lemma dual_step_within budget st ev st' acts :
  dual_step st ev = Some (st', acts) ->
  budget + acceptedBytes acts <= GoInt.max_int ->
  within budget st ->
  within (budget + acceptedBytes acts) st'.
Proof.
  unfold within. intros H Hfit (Hu & Hb & Ha).
  destruct st as [m ipc rp opc om em es]. step_simpl.
  step_cases_mem H; step_simpl; simplify_eq; step_simpl;
    (split; [first [exact Hu | by apply push_tracks | by apply shift_tracks]|]);
    rewrite ?push_stored, ?push_limit, ?shift_limit;
    repeat match goal with
           | msg : Message |- _ =>
               lazymatch goal with
               | _ : 0 <= msgBytes msg |- _ => fail
               | _ => pose proof (msgBytes_nonneg msg)
               end
           end;
    pose proof (stored_nonneg (buffer m));
    pose proof (shift_stored m) as [? ?];
    pose proof (shift_used_le m Hu);
    (split; [lia|]);
    try (intros; discriminate);
    try (intros _; lia);
    intros Hclr; specialize (Ha Hclr);
    pose proof (pendingBytes_nonneg ipc); lia.
Qed.

Lemma dual_run_within evs : forall budget st st' acts,
  within budget st ->
  dual_run evs st = Some (st', acts) ->
  budget + acceptedBytes acts <= GoInt.max_int ->
  within (budget + acceptedBytes acts) st'.
Proof.
  induction evs as [|ev evs IH]; intros budget st st' acts W H Hfit;
    cbn [dual_run] in H.
  - injection H as <- <-. cbn. by rewrite Z.add_0_r.
  - destruct (dual_step st ev) as [[st1 a1]|] eqn:H1; [|discriminate].
    destruct (dual_run evs st1) as [[st2 a2]|] eqn:H2; [|discriminate].
    injection H as <- <-. rewrite acceptedBytes_app in *.
    pose proof (acceptedBytes_nonneg a2).
    rewrite Z.add_assoc. apply (IH _ st1); [|exact H2|lia].
    apply (dual_step_within _ st ev); [exact H1|lia|exact W].
Qed.

Lemma started_within limit cin cout :
  within 0 (dual_init (started limit cin cout)).
Proof. unfold within. cbn. repeat split; [lia|discriminate]. Qed.

(** The receive of [inputLoop] is taken only from [InRecv]. *)
Lemma receive_ready st x :
  is_Some (dual_step st (InReceive x)) -> in_pc st = InRecv.
Proof.
  intros [[st' acts] H]. unfold dual_step, inputLoop in H.
  destruct (out_pc st), (in_pc st); try discriminate; reflexivity.
Qed.

(** [outputLoop] never gets to make its map: in every state the two
    goroutines reach, [errMap] is still nil and [errs] empty. *)
Lemma errMap_stays_nil evs : forall st st' acts,
  errMap st = None /\ errs st = [] ->
  dual_run evs st = Some (st', acts) ->
  errMap st' = None /\ errs st' = [].
Proof.
  induction evs as [|ev evs IH]; intros st st' acts K H; cbn [dual_run] in H.
  - by injection H as <- <-.
  - destruct (dual_step st ev) as [[st1 a1]|] eqn:H1; [|discriminate].
    destruct (dual_run evs st1) as [[st2 a2]|] eqn:H2; [|discriminate].
    injection H as <- <-. apply (IH st1 _ a2); [|exact H2].
    destruct K as [Km Ke]. destruct st as [m ipc rp opc om em es].
    cbn in Km, Ke. subst em es.
    step_cases H1; cbn; done.
Qed.

End TwoLoops.

(** ** Backpressure, acknowledgements and delivery failures *)

Section ControlLoops.

(** C4 (backpressure), as the code has it.  While [used] is above
    [limit]:
    - the unified loop has neither the receive of a new message nor the
      send of a response among the cases of its [select];
    - the two-goroutine variant, in every state it reaches from a
      started buffer (as long as the bytes accepted so far are
      representable as an [int]), is not at its receive.
    Every response either variant ever sends is the nil response, never
    an error.  And the delay ends with the excess: back under the limit,
    the unified loop is ready to send the response it owes or, owing
    none, to receive; [inputLoop], at its check, moves on to do the
    same. *)
Theorem backpressure_delays :
  (forall st x,
      fst (limitReached (mem st)) = true ->
      loop_iter st (RecvMessage x) = None /\
      loop_iter st SendResponse = None) /\
  (forall limit cin cout evs st acts x,
      dual_run evs (dual_init (started limit cin cout)) = Some (st, acts) ->
      acceptedBytes acts <= GoInt.max_int ->
      is_Some (dual_step st (InReceive x)) ->
      fst (limitReached (shared st)) = false) /\
  (forall st ev st' acts res,
      loop_iter st ev = Some (st', acts) ->
      In (Responded res) acts -> Error res = None) /\
  (forall st ev st' acts res,
      dual_step st ev = Some (st', acts) ->
      In (Responded res) acts -> Error res = None) /\
  (forall st c x,
      loop_running st = true ->
      fst (limitReached (mem st)) = false ->
      messagesIn (mem st) = Some c ->
      if responseOutPending st
      then is_Some (loop_iter st SendResponse)
      else is_Some (loop_iter st (RecvMessage x))) /\
  (forall st,
      out_pc st <> OutPanic ->
      in_pc st = InCheckLimit ->
      fst (limitReached (shared st)) = false ->
      exists st', dual_step st InTick = Some (st', []) /\
                  cleared (in_pc st') = true).
Proof.
  split; [|split; [|split; [|split; [|split]]]].
  - intros st x Hover. unfold loop_iter, select.
    rewrite prepare_inMsgChan, prepare_outResChan, Hover.
    by destruct (loop_running st).
  - intros limit cin cout evs st acts x Hrun Hfit Hready.
    pose proof (dual_run_within evs 0 _ _ _
                  (started_within limit cin cout) Hrun) as W.
    cbn [Z.add] in W. destruct (W Hfit) as (_ & _ & Hclr).
    apply receive_ready in Hready. rewrite Hready in Hclr.
    unfold limitReached. cbn [fst]. apply Z.ltb_ge. by apply Hclr.
  - apply loop_iter_responds_nil.
  - apply dual_step_responds_nil.
  - intros st c x Hrun Hunder Hin. unfold loop_iter, select.
    rewrite prepare_inMsgChan, prepare_outResChan, Hrun, Hunder, Hin.
    cbn [negb]. destruct (responseOutPending st); [by eexists|].
    destruct x; cbn; by eexists.
  - intros st Hlive Hpc Hunder. unfold dual_step, inputLoop.
    rewrite Hpc. unfold limitReached in *. cbn [fst] in Hunder.
    rewrite Hunder. cbn [negb].
    destruct (out_pc st); try congruence;
      destruct (responsePending st); eexists; split; reflexivity.
Qed.

Lemma backpressure_delays_witness :
  match dual_run [InTick; InTick;
                  InReceive (Some (mkMessage [mkSlice [] 2]));
                  InTick; InTick; InTick; InTick]
                 (dual_init (started 3 1 2)) with
  | Some (st, acts) =>
      acceptedBytes acts <= GoInt.max_int /\
      is_Some (dual_step st (InReceive (Some (mkMessage [mkSlice [] 1])))) /\
      fst (limitReached (shared st)) = false
  | None => False
  end /\
  loop_iter (loop_init (snd (pushMessage (mkMessage [mkSlice [] 5])
                               (started 3 1 2))))
            (RecvMessage (Some (mkMessage [mkSlice [] 1]))) = None.
Proof.
  destruct backpressure_delays as (Hloop & Hdual & _).
  split; [|refine (proj1 (Hloop _ _ _)); reflexivity].
  destruct (dual_run _ (dual_init (started 3 1 2))) as [[st acts]|] eqn:E;
    [|discriminate E].
  assert (Hfit : acceptedBytes acts <= GoInt.max_int).
  { vm_compute in E. injection E as <- <-. vm_compute. discriminate. }
  assert (Hready :
            is_Some (dual_step st
                       (InReceive (Some (mkMessage [mkSlice [] 1]))))).
  { vm_compute in E. injection E as <- <-. by eexists. }
  exact (conj Hfit (conj Hready (Hdual _ _ _ _ _ _ _ E Hfit Hready))).
Defined.

(** C4 as stated fails for [inputLoop] once [used] has wrapped around.
    With limit 3, a message of two parts of capacity 2^62 is accepted
    and pushed: its size, and [used], wrap to -2^63, which is under the
    limit.  A message of 5 bytes follows, [used] is 5 - 2^63, and
    [inputLoop] passes its limit check a third time and waits at its
    receive.  Now [outputLoop] delivers the first message and shifts it
    out: [used] is 5, above the limit, and [inputLoop], still at its
    receive, accepts the next message all the same. *)
Lemma overflow_defeats_backpressure :
  let big := mkMessage [mkSlice [] (2 ^ 62); mkSlice [] (2 ^ 62)] in
  let five := mkMessage [mkSlice [] 5] in
  let next := mkMessage [mkSlice [] 1] in
  match dual_run [InTick; InTick; InReceive (Some big); InTick; InTick;
                  InTick; InTick; InReceive (Some five); InTick; InTick;
                  InTick; InTick;
                  OutTick; OutTick; OutTick;
                  OutReceive (Some (NewSimpleResponse None)); OutTick]
                 (dual_init (started 3 1 2)) with
  | Some (st, acts) =>
      acts = [Accepted big; Responded (NewSimpleResponse None);
              Accepted five; Responded (NewSimpleResponse None);
              Forwarded big] /\
      buffer (shared st) = [five] /\
      limit (shared st) = 3 /\
      used (shared st) = 5 /\
      fst (limitReached (shared st)) = true /\
      in_pc st = InRecv /\
      option_map snd (dual_step st (InReceive (Some next)))
      = Some [Accepted next]
  | None => False
  end.
Proof. vm_compute. repeat split; reflexivity. Qed.

(** C5 (acknowledgements), as the code has it.  In every execution of
    either variant, accepts and responses alternate strictly, an accept
    first: no response is sent unless an accepted message waits for
    one, and no message is accepted while another still waits.  So a
    message is never answered twice, and the accepts outnumber the
    responses by at most the one message still waiting: the message
    whose response is owed when the loop shuts down gets none. *)
Theorem at_most_one_response :
  (forall evs m st acts,
      loop evs m = Some (st, acts) ->
      answer false acts = Some (responseOutPending st) /\
      accepts acts = (responses acts + owed (responseOutPending st))%nat) /\
  (forall evs m st acts,
      dual_run evs (dual_init m) = Some (st, acts) ->
      answer false acts = Some (outstanding st) /\
      accepts acts = (responses acts + owed (outstanding st))%nat).
Proof.
  split; intros evs m st acts H.
  - pose proof (loop_answer _ _ _ _ H) as A. split; [exact A|].
    apply answer_counts in A. cbn [owed] in A. lia.
  - assert (K : flag_agrees (dual_init m)) by exact I.
    destruct (dual_run_answer _ _ _ _ K H) as [_ A]. split; [exact A|].
    apply answer_counts in A. cbn [owed outstanding dual_init in_pc
      responsePending] in A. lia.
Qed.

Lemma at_most_one_response_witness :
  answer false
    [Accepted (mkMessage [mkSlice [] 5]);
     Responded (NewSimpleResponse None);
     Accepted (mkMessage [mkSlice [] 6])] = Some true /\
  answer false
    [Accepted (mkMessage [mkSlice [] 2]);
     Responded (NewSimpleResponse None)] = Some false.
Proof.
  destruct at_most_one_response as [Hloop Hdual].
  split.
  - pose (evs := [RecvMessage (Some (mkMessage [mkSlice [] 5]));
                  SendResponse;
                  RecvMessage (Some (mkMessage [mkSlice [] 6]))]).
    destruct (loop evs (started 20 1 2)) as [[st acts]|] eqn:E;
      [|discriminate E].
    pose proof (proj1 (Hloop _ _ _ _ E)) as A.
    vm_compute in E. injection E as <- <-. exact A.
  - pose (evs := [InTick; InTick;
                  InReceive (Some (mkMessage [mkSlice [] 2]));
                  InTick; InTick]).
    destruct (dual_run evs (dual_init (started 3 1 2)))
      as [[st acts]|] eqn:E; [|discriminate E].
    pose proof (proj1 (Hdual _ _ _ _ E)) as A.
    vm_compute in E. injection E as <- <-. exact A.
Defined.

(** C5 as stated fails: a message is accepted, the close signal comes
    before the response is sent, and the loop ends having closed the
    response channel without ever answering.  So it is in the unified
    loop, and so it is in [inputLoop] when the push went over the limit
    and the response was put off. *)
Lemma response_lost_at_shutdown :
  option_map snd
    (loop [RecvMessage (Some (mkMessage [mkSlice [] 5])); CloseSignal]
          (started 10 1 2))
  = Some [Accepted (mkMessage [mkSlice [] 5]);
          Closed MessagesOut; Closed ErrorsChan; Closed ResponsesOut] /\
  option_map snd
    (dual_run [InTick; InTick; InReceive (Some (mkMessage [mkSlice [] 5]));
               InTick; CallCloseAsync; InTick; InTick]
              (dual_init (started 3 1 2)))
  = Some [Accepted (mkMessage [mkSlice [] 5]); Closed ResponsesOut].
Proof. split; reflexivity. Qed.

(** After a failure the unified loop keeps the head where it is and
    offers it again: the queue and [used] are untouched, and with the
    consumer's response in, the head is once more what the loop sends. *)
Lemma failure_keeps_head st e c head rest :
  loop_running st = true ->
  responsesIn (mem st) = Some c ->
  buffer (mem st) = head :: rest ->
  exists st1 st2,
    loop_iter st (RecvResponse (Some (NewSimpleResponse (Some e))))
    = Some (st1, []) /\
    mem st1 = mem st /\
    loop_iter st1 SendMessage = Some (st2, [Forwarded head]).
Proof.
  intros Hrun Hres Hbuf. unfold loop_iter at 1, select. rewrite Hrun, Hres.
  eexists _, _. split; [reflexivity|]. split; [reflexivity|].
  cbn [Error]. unfold loop_iter, select.
  cbn [loop_running with_in_pending with_errors]. rewrite Hrun.
  pose proof (prepare_outMsgChan
                (with_in_pending false (with_errors (errors st ++ [e]) st)))
    as Hp.
  cbn [responseInPending with_in_pending mem with_errors negb] in Hp.
  rewrite Hbuf in Hp. injection Hp as -> ->. reflexivity.
Qed.

(** C8 (delivery failures), what the code does.  The unified loop
    appends the error to its list whether or not the list already holds
    it, so the slice it reports can carry the same error more than
    once.  [outputLoop] never makes its map before writing to it: in
    every state the two goroutines reach, the first failure reported by
    the consumer ends in the panic of the write to a nil map, after
    which nothing moves, and no error is ever reported. *)
Theorem delivery_failure_handling :
  (forall st e c,
      loop_running st = true ->
      responsesIn (mem st) = Some c ->
      exists st',
        loop_iter st (RecvResponse (Some (NewSimpleResponse (Some e))))
        = Some (st', []) /\
        errors st' = errors st ++ [e] /\
        mem st' = mem st) /\
  (forall m evs st acts e c,
      dual_run evs (dual_init m) = Some (st, acts) ->
      out_pc st = OutRecvRes ->
      responsesIn (shared st) = Some c ->
      exists st',
        dual_step st (OutReceive (Some (NewSimpleResponse (Some e))))
        = Some (st', []) /\
        out_pc st' = OutPanic /\
        forall ev, dual_step st' ev = None).
Proof.
  split.
  - intros st e c Hrun Hres. unfold loop_iter, select. rewrite Hrun, Hres.
    eexists. repeat split.
  - intros m evs st acts e c Hrun Hpc Hres.
    destruct (errMap_stays_nil evs (dual_init m) st acts) as [Hmap _];
      [done|exact Hrun|].
    unfold dual_step, outputLoop. rewrite Hpc, Hres, Hmap.
    eexists. repeat split.
Qed.

Lemma delivery_failure_handling_witness :
  option_map snd
    (loop_run [SendMessage;
               RecvResponse (Some (NewSimpleResponse (Some (ErrOther 7))));
               SendMessage;
               RecvResponse (Some (NewSimpleResponse (Some (ErrOther 7))));
               SendErrors]
       (loop_init (snd (pushMessage (mkMessage [mkSlice [] 5])
                          (started 10 1 2)))))
  = Some [Forwarded (mkMessage [mkSlice [] 5]);
          Forwarded (mkMessage [mkSlice [] 5]);
          Reported [ErrOther 7; ErrOther 7]] /\
  option_map (fun r => out_pc (fst r))
    (dual_run [OutTick; OutTick; OutTick;
               OutReceive (Some (NewSimpleResponse (Some (ErrOther 7))))]
       (dual_init (snd (pushMessage (mkMessage [mkSlice [] 5])
                          (started 10 1 2)))))
  = Some OutPanic.
Proof.
  destruct delivery_failure_handling as [Hloop Hdual].
  split; [reflexivity|].
  set (m := snd (pushMessage (mkMessage [mkSlice [] 5]) (started 10 1 2))).
  destruct (dual_run [OutTick; OutTick; OutTick] (dual_init m))
    as [[st acts]|] eqn:E; [|discriminate E].
  destruct (Hdual m _ st acts (ErrOther 7) 2%nat E) as (st' & Hs & Hp & _).
  - vm_compute in E. by injection E as <- <-.
  - vm_compute in E. by injection E as <- <-.
  - change (dual_run [OutTick; OutTick; OutTick;
              OutReceive (Some (NewSimpleResponse (Some (ErrOther 7))))]
              (dual_init m))
      with (dual_run ([OutTick; OutTick; OutTick] ++
              [OutReceive (Some (NewSimpleResponse (Some (ErrOther 7))))])
              (dual_init m)).
    rewrite dual_run_snoc, E, Hs. cbn [option_map fst]. by rewrite Hp.
Defined.

End ControlLoops.

(** ** The fallback router *)

Section FallbackRouter.

Context {W : Type}.

Implicit Types (t : Fallback.Target W) (orig : Fallback.Message) (w : W).

Lemma rejects_outcome orig t e w :
  Fallback.rejects orig t e ->
  exists w1, Fallback.try_target t orig w = (Fallback.Failed e, w1).
Proof.
  intros H. specialize (H w).
  destruct (Fallback.try_target t orig w) as [o w1]. cbn in H. subst o.
  by exists w1.
Qed.

Lemma accepts_outcome orig t w :
  Fallback.accepts orig t ->
  exists o w1, Fallback.try_target t orig w = (o, w1) /\
               Fallback.succeeded o = true.
Proof.
  intros H. specialize (H w).
  destruct (Fallback.try_target t orig w) as [o w1]. by exists o, w1.
Qed.

(** When every target from [t] on rejects, the router goes through all
    of them and ends on the last one's error. *)
Lemma route_from_all_reject orig rest : forall i t errs w,
  Forall2 (Fallback.rejects orig) (t :: rest) errs ->
  exists e w',
    last errs = Some e /\
    Fallback.route_from i t rest orig w
    = (zip (seq i (S (length rest))) (Fallback.Failed <$> errs),
       Fallback.rejected e, w').
Proof.
  induction rest as [|t' rest IH]; intros i t errs w H.
  - inversion H as [|? e ? errs' Ht Hrest]; subst.
    inversion Hrest; subst.
    destruct (rejects_outcome orig t e w Ht) as [w1 E].
    exists e, w1. cbn. rewrite E. done.
  - inversion H as [|? e ? errs' Ht Hrest]; subst.
    destruct (rejects_outcome orig t e w Ht) as [w1 E].
    destruct (IH (S i) t' errs' w1 Hrest) as (e' & w' & Hlast & Hroute).
    exists e', w'. split.
    + destruct errs' as [|e1 errs']; [inversion Hrest|]. exact Hlast.
    + cbn [Fallback.route_from]. rewrite E, Hroute. reflexivity.
Qed.

(** When the targets of [pre] reject and [t] accepts, the router goes
    through [pre] in order, stops at [t], and leaves [post] alone. *)
Lemma route_from_first_accept orig t post : forall pre i errs w r,
  Forall2 (Fallback.rejects orig) pre errs ->
  Fallback.accepts orig t ->
  Fallback.NewFallback (pre ++ t :: post) = Some r ->
  exists o w',
    Fallback.succeeded o = true /\
    Fallback.route_from i (Fallback.first r) (Fallback.others r) orig w
    = (zip (seq i (length pre)) (Fallback.Failed <$> errs)
         ++ [((i + length pre)%nat, o)],
       Fallback.accepted, w').
Proof.
  induction pre as [|p pre IH]; intros i errs w r Hpre Ht Hr.
  - inversion Hpre; subst. cbn in Hr. injection Hr as <-.
    destruct (accepts_outcome orig t w Ht) as (o & w1 & E & Hok).
    exists o, w1. split; [exact Hok|].
    cbn [Fallback.first Fallback.others].
    destruct post; cbn [Fallback.route_from]; rewrite E;
      destruct o; try discriminate; cbn; by rewrite Nat.add_0_r.
  - inversion Hpre as [|? e ? errs' Hp Hrest]; subst.
    cbn in Hr. injection Hr as <-.
    destruct (rejects_outcome orig p e w Hp) as [w1 E].
    destruct (pre ++ t :: post) as [|q rest] eqn:Hq.
    { by destruct pre. }
    destruct (IH (S i) errs' w1 (Fallback.mkRouter q rest) Hrest Ht)
      as (o & w' & Hok & Hroute).
    { reflexivity. }
    exists o, w'. split; [exact Hok|].
    cbn [Fallback.first Fallback.others] in *.
    cbn [Fallback.route_from]. rewrite E, Hroute. cbn.
    by rewrite Nat.add_succ_r.
Qed.

(** Whatever the targets do, the attempts are a run of failures at the
    consecutive positions from [i] on, then one last attempt; that one
    either succeeded, or failed at the last target. *)
Lemma route_from_shape orig rest : forall i t w,
  exists errs o,
    fst (fst (Fallback.route_from i t rest orig w))
    = zip (seq i (length errs)) (Fallback.Failed <$> errs)
        ++ [((i + length errs)%nat, o)] /\
    (length errs <= length rest)%nat /\
    if Fallback.succeeded o
    then snd (fst (Fallback.route_from i t rest orig w)) = Fallback.accepted
    else length errs = length rest.
Proof.
  induction rest as [|t' rest IH]; intros i t w; cbn [Fallback.route_from];
    destruct (Fallback.try_target t orig w) as [o w1].
  - exists [], o. cbn. rewrite Nat.add_0_r. by destruct o.
  - destruct o as [| |e].
    + exists [], Fallback.Filtered. cbn. rewrite Nat.add_0_r.
      repeat split. lia.
    + exists [], Fallback.Delivered. cbn. rewrite Nat.add_0_r.
      repeat split. lia.
    + destruct (IH (S i) t' w1) as (errs & o & Hlog & Hlen & Hres).
      destruct (Fallback.route_from (S i) t' rest orig w1) as [[log res] w2].
      cbn [fst snd] in *. exists (e :: errs), o.
      cbn [length seq fmap list_fmap zip zip_with app].
      rewrite Hlog, Nat.add_succ_r. split; [reflexivity|].
      split; [lia|]. destruct (Fallback.succeeded o); [exact Hres|lia].
Qed.

(** C6 (fallback order).  Whatever the message and the configured list,
    the router attempts the targets in the configured order, one after
    the other from the first, none skipped and none twice; every attempt
    but the last one made has failed, so nothing is attempted after a
    success; and it stops before the end of the list only on a success,
    which it acknowledges as accepted.  So when the targets before [t]
    reject and [t] accepts, the attempts are exactly those targets and
    then [t], and none of the targets after [t]: with targets A, B, C
    where A and B reject and C accepts, A, then B, then C. *)
Theorem fallback_order (r : Fallback.Router W) orig w :
  (exists errs o,
      fst (fst (Fallback.route r orig w))
      = zip (seq 0 (length errs)) (Fallback.Failed <$> errs)
          ++ [(length errs, o)] /\
      (length errs <= length (Fallback.others r))%nat /\
      if Fallback.succeeded o
      then snd (fst (Fallback.route r orig w)) = Fallback.accepted
      else length errs = length (Fallback.others r)) /\
  (forall pre errs t post,
      Fallback.targets_of r = pre ++ t :: post ->
      Forall2 (Fallback.rejects orig) pre errs ->
      Fallback.accepts orig t ->
      exists o w',
        Fallback.succeeded o = true /\
        Fallback.route r orig w
        = (zip (seq 0 (length pre)) (Fallback.Failed <$> errs)
             ++ [(length pre, o)],
           Fallback.accepted, w')).
Proof.
  split.
  - exact (route_from_shape orig (Fallback.others r) 0 (Fallback.first r) w).
  - intros pre errs t post Htargets Hpre Ht. unfold Fallback.route.
    apply (route_from_first_accept orig t post pre 0 errs w r Hpre Ht).
    rewrite <- Htargets. by destruct r.
Qed.

(** C7 (fallback exhaustion).  When every one of the N >= 1 targets
    rejects, the router has attempted all of them in order and resolves
    the transaction as rejected with the error of the last target; that
    error is the only one in the acknowledgement. *)
Theorem fallback_exhausted (targets : list (Fallback.Target W))
    (errs : list Fallback.error) (r : Fallback.Router W) orig w :
  Forall2 (Fallback.rejects orig) targets errs ->
  Fallback.NewFallback targets = Some r ->
  exists e w',
    last errs = Some e /\
    Fallback.route r orig w
    = (zip (seq 0 (length targets)) (Fallback.Failed <$> errs),
       Fallback.rejected e, w').
Proof.
  intros Hall Hr. destruct targets as [|t rest]; [discriminate|].
  cbn in Hr. injection Hr as <-. unfold Fallback.route.
  exact (route_from_all_reject orig rest 0 t errs w Hall).
Qed.

End FallbackRouter.

Section FallbackScenarios.

Lemma fallback_order_witness :
  exists o w',
    Fallback.succeeded o = true /\
    Fallback.route
      (Fallback.mkRouter (Fallback.failing "a")
         [Fallback.failing "b"; Fallback.sinking; Fallback.failing "d"])
      [Fallback.mkPart "x" ∅] tt
    = ([(0%nat, Fallback.Failed "a"); (1%nat, Fallback.Failed "b");
        (2%nat, o)],
       Fallback.accepted, w').
Proof.
  apply (proj2 (fallback_order
                  (Fallback.mkRouter (Fallback.failing "a")
                     [Fallback.failing "b"; Fallback.sinking;
                      Fallback.failing "d"])
                  [Fallback.mkPart "x" ∅] tt)
           [Fallback.failing "a"; Fallback.failing "b"] ["a"; "b"]
           Fallback.sinking [Fallback.failing "d"]).
  - reflexivity.
  - repeat constructor.
  - intros w. reflexivity.
Defined.

Lemma fallback_exhausted_witness :
  exists e w',
    last ["a"; "b"; "c"] = Some e /\
    Fallback.route
      (Fallback.mkRouter (Fallback.failing "a")
         [Fallback.failing "b"; Fallback.failing "c"])
      [Fallback.mkPart "x" ∅] tt
    = ([(0%nat, Fallback.Failed "a"); (1%nat, Fallback.Failed "b");
        (2%nat, Fallback.Failed "c")],
       Fallback.rejected e, w').
Proof.
  apply (fallback_exhausted
           [Fallback.failing "a"; Fallback.failing "b"; Fallback.failing "c"]
           ["a"; "b"; "c"]).
  - repeat constructor.
  - reflexivity.
Defined.

(** Targets A, B, C, with A and B rejecting and C accepting: A, then B,
    then C; a fourth target is never attempted. *)
Example abc_attempts :
  fst (Fallback.route
         (Fallback.mkRouter (Fallback.failing "a")
            [Fallback.failing "b"; Fallback.sinking; Fallback.failing "d"])
         [Fallback.mkPart "x" ∅] tt)
  = ([(0%nat, Fallback.Failed "a"); (1%nat, Fallback.Failed "b");
      (2%nat, Fallback.Delivered)],
     Fallback.accepted).
Proof. reflexivity. Qed.

(** [TestFallbackOutputBasic]: outOne fails each time, outTwo takes the
    four messages, outThree is never reached (its counter only moves
    with outTwo's paths), each transaction is accepted, and the four
    files are the ones the test expects. *)
Example test_fallback_output_basic :
  let r := Fallback.mkRouter Fallback.outOne
             [Fallback.outTwo; Fallback.outThree] in
  let '(out, w) := Fallback.route_all r Fallback.inputs Fallback.world0 in
  out = replicate 4
          ([(0%nat, Fallback.Failed "connection refused");
            (1%nat, Fallback.Delivered)], Fallback.accepted) /\
  size (Fallback.files w) = 4%nat /\
  map (fun kv => Fallback.files w !! fst kv) Fallback.expFiles
  = map (fun kv => Some (snd kv)) Fallback.expFiles.
Proof. vm_compute. repeat split. Qed.

End FallbackScenarios.

(** * Further properties of the buffer *)

(** ** Filling and emptying the queue *)

Section RoundTrip.

Lemma wrap_range z : GoInt.in_range (GoInt.wrap z).
Proof.
  unfold GoInt.in_range, GoInt.wrap, GoInt.min_int, GoInt.max_int.
  pose proof (Z.mod_pos_bound (z + 2 ^ 63) (2 ^ 64)). lia.
Qed.

(** The queue methods leave everything but [buffer] and [used] alone. *)
Lemma pushAll_frame msgs : forall m,
  pushAll msgs m
  = set_queue (buffer (pushAll msgs m)) (used (pushAll msgs m)) m.
Proof.
  unfold pushAll.
  induction msgs as [|msg msgs IH]; intros m; cbn [fold_left].
  - by destruct m.
  - rewrite IH at 1. reflexivity.
Qed.

Lemma drain_frame n : forall m,
  snd (drain n m)
  = set_queue (buffer (snd (drain n m))) (used (snd (drain n m))) m.
Proof.
  induction n as [|n IH]; intros m; cbn [drain].
  - by destruct m.
  - unfold nextMessage, shiftMessage.
    destruct (buffer m) as [|msg rest] eqn:Hb; cbn [snd].
    + by destruct m.
    + rewrite Hb.
      specialize (IH (set_queue rest (GoInt.sub (used m) (messageSize msg)) m)).
      destruct (drain n _) as [out m3]. cbn [snd] in *.
      rewrite IH at 1. reflexivity.
Qed.

Lemma pushAll_used msgs : forall m,
  GoInt.in_range (used m) ->
  used (pushAll msgs m) = GoInt.wrap (used m + stored msgs).
Proof.
  unfold pushAll.
  induction msgs as [|msg msgs IH]; intros m Hr; cbn [fold_left].
  - cbn [stored fold_right]. rewrite Z.add_0_r. by rewrite wrap_in_range.
  - rewrite IH.
    + unfold pushMessage. cbn [snd set_queue used]. unfold GoInt.add.
      rewrite messageSize_wrap, wrap_plus_r, wrap_plus_l.
      cbn [stored fold_right]. f_equal. fold (stored msgs). lia.
    + unfold pushMessage. cbn [snd set_queue used]. apply wrap_range.
Qed.

Lemma drain_used n : forall m,
  GoInt.in_range (used m) ->
  used (snd (drain n m))
  = GoInt.wrap (used m - stored (firstn n (buffer m))).
Proof.
  induction n as [|n IH]; intros m Hr; cbn [drain].
  - cbn [firstn stored fold_right snd]. rewrite Z.sub_0_r.
    by rewrite wrap_in_range.
  - unfold nextMessage, shiftMessage.
    destruct (buffer m) as [|msg rest] eqn:Hb; cbn [snd].
    + cbn [firstn stored fold_right]. rewrite Z.sub_0_r.
      by rewrite wrap_in_range.
    + rewrite Hb.
      specialize (IH (set_queue rest (GoInt.sub (used m) (messageSize msg)) m)).
      destruct (drain n _) as [out m3]. cbn [snd set_queue used buffer] in *.
      rewrite IH by apply wrap_range. unfold GoInt.sub.
      rewrite messageSize_wrap, wrap_minus_r, wrap_minus_l.
      cbn [firstn stored fold_right]. f_equal. fold (stored (firstn n rest)).
      lia.
Qed.

(** Round trip.  On an empty queue, pushing any messages and then taking
    them all out again gives the messages back in order and leaves the
    agent exactly as it was, [used] included, even when the sizes added
    up in between do not fit in an [int]. *)
Theorem fill_and_drain_restores (m : Memory) (msgs : list Message) :
  buffer m = [] ->
  GoInt.in_range (used m) ->
  drain (length msgs) (pushAll msgs m) = (msgs, m).
Proof.
  intros Hb Hr.
  pose proof (drain_buffer (length msgs) (pushAll msgs m)) as [Hout Hbuf].
  pose proof (drain_frame (length msgs) (pushAll msgs m)) as Hframe.
  pose proof (drain_used (length msgs) (pushAll msgs m)) as Hused.
  rewrite pushAll_buffer, Hb in Hout, Hbuf, Hused. cbn [app] in *.
  rewrite firstn_all in Hout, Hused. rewrite skipn_all in Hbuf.
  assert (Hu : used (snd (drain (length msgs) (pushAll msgs m))) = used m).
  { rewrite Hused; rewrite pushAll_used by exact Hr; [|apply wrap_range].
    rewrite wrap_minus_l.
    replace (used m + stored msgs - stored msgs) with (used m) by lia.
    by apply wrap_in_range. }
  destruct (drain (length msgs) (pushAll msgs m)) as [out m'].
  cbn [fst snd] in *. subst out. f_equal.
  rewrite Hframe, Hbuf, Hu, (pushAll_frame msgs m).
  destruct m. cbn in *. by subst.
Qed.

Lemma fill_and_drain_restores_witness :
  drain 2 (pushAll [mkMessage [mkSlice [] 5]; mkMessage [mkSlice [] 9]]
             (NewMemory 3))
  = ([mkMessage [mkSlice [] 5]; mkMessage [mkSlice [] 9]], NewMemory 3).
Proof.
  apply (fill_and_drain_restores (NewMemory 3)
           [mkMessage [mkSlice [] 5]; mkMessage [mkSlice [] 9]]).
  - reflexivity.
  - split; vm_compute; discriminate.
Defined.

End RoundTrip.

(** ** Case analysis on the loops *)

(** One turn of the unified loop, the queue methods kept whole. *)
Ltac loop_cases H :=
  unfold loop_iter, select in H;
  rewrite ?prepare_inMsgChan, ?prepare_outResChan, ?prepare_errChan in H;
  unfold limitReached in H; cbn [fst] in H;
  repeat match type of H with
         | context [match ?x with _ => _ end] =>
             destruct x eqn:?; try discriminate H
         end;
  repeat match goal with
         | E : context [match ?x with _ => _ end] |- _ =>
             destruct x eqn:?; try discriminate E
         end;
  repeat match goal with
         | E : pushMessage ?msg ?m = (_, ?m') |- _ =>
             assert (m' = snd (pushMessage msg m)) by (by rewrite E);
             clear E; subst m'
         end;
  simplify_eq.

Ltac loop_simpl :=
  cbn [mem with_mem with_in_pending with_out_pending with_errors stop
       responseInPending responseOutPending loop_running errors
       acceptedBytes fold_right acceptedMsgs
       set_messagesIn set_responsesIn used buffer limit] in *.

(** One step of the two goroutines, the queue methods kept whole. *)
Ltac dual_cases H :=
  unfold dual_step, inputLoop, outputLoop, limitReached, nextMessage in H;
  repeat match type of H with
         | context [match ?x with _ => _ end] =>
             destruct x eqn:?; try discriminate H
         end;
  repeat match goal with
         | E : context [match ?x with _ => _ end] |- _ =>
             destruct x eqn:?; try discriminate E
         end;
  repeat match goal with
         | E : pushMessage ?msg ?m = (_, ?m') |- _ =>
             assert (m' = snd (pushMessage msg m)) by (by rewrite E);
             clear E; subst m'
         | E : shiftMessage ?m = (_, ?m') |- _ =>
             assert (m' = snd (shiftMessage m)) by (by rewrite E);
             clear E; subst m'
         end.

Ltac dual_simpl :=
  cbn [shared in_pc out_pc out_msg errMap errs responsePending
       in_goto out_goto cleared committed pendingBytes inHand
       shifting waiting idle may_accept may_forward
       acceptedBytes fold_right acceptedMsgs
       set_running spawn_done CloseAsync
       used buffer limit closedWG running] in *.

(** Run the schedule a goal is about, and keep its outcome as [E]. *)
Ltac settle_run E :=
  lazymatch goal with
  | |- match ?run with _ => _ end =>
      let r := eval vm_compute in run in
      lazymatch r with
      | Some (?st, ?acts) =>
          assert (E : run = Some (st, acts)) by (vm_compute; reflexivity);
          rewrite E
      end
  end.

(** ** How much the buffer holds *)

Section MemoryBound.

Lemma lastBytes_nonneg b : 0 <= lastBytes b.
Proof.
  unfold lastBytes. destruct (last b); [apply msgBytes_nonneg|lia].
Qed.

Lemma lastBytes_snoc b msg : lastBytes (b ++ [msg]) = msgBytes msg.
Proof. unfold lastBytes. by rewrite last_snoc. Qed.

Lemma lastBytes_cons h x rest : lastBytes (h :: x :: rest) = lastBytes (x :: rest).
Proof. reflexivity. Qed.

(** A push made while [used] is within [limit]. *)
Lemma push_bounded budget msg m :
  bounded budget m ->
  used m <= limit m ->
  budget + msgBytes msg <= GoInt.max_int ->
  bounded (budget + msgBytes msg) (snd (pushMessage msg m)).
Proof.
  intros (Hu & Hb & _) Hle Hfit.
  pose proof (stored_nonneg (buffer m)). pose proof (msgBytes_nonneg msg).
  assert (Hused : used m = stored (buffer m)).
  { rewrite Hu. apply wrap_in_range.
    unfold GoInt.in_range, GoInt.min_int. lia. }
  split; [by apply push_tracks|]. rewrite push_stored. split; [lia|].
  rewrite push_limit, (push_tracks msg m Hu), push_stored.
  unfold pushMessage. cbn [snd set_queue buffer]. rewrite lastBytes_snoc.
  rewrite wrap_in_range; [lia|].
  unfold GoInt.in_range, GoInt.min_int. lia.
Qed.

Lemma shift_buffer m : buffer (snd (shiftMessage m)) = tail (buffer m).
Proof.
  unfold shiftMessage. destruct (buffer m) eqn:Hb; cbn [snd set_queue buffer].
  - by rewrite Hb.
  - reflexivity.
Qed.

Lemma shift_bounded budget m :
  bounded budget m ->
  budget <= GoInt.max_int ->
  bounded budget (snd (shiftMessage m)).
Proof.
  intros (Hu & Hb & Hl) Hfit.
  pose proof (shift_stored m) as [H0 H1].
  pose proof (stored_nonneg (buffer m)) as Hpos.
  split; [by apply shift_tracks|]. split; [lia|].
  rewrite shift_limit, (shift_tracks m Hu).
  rewrite Hu in Hl. rewrite wrap_in_range in Hl
    by (unfold GoInt.in_range, GoInt.min_int; lia).
  rewrite wrap_in_range by (unfold GoInt.in_range, GoInt.min_int; lia).
  rewrite shift_buffer in *.
  destruct (buffer m) as [|h [|x rest]]; cbn [tail] in *.
  - exact Hl.
  - unfold lastBytes in *. cbn in *. lia.
  - rewrite lastBytes_cons in Hl. lia.
Qed.

Lemma loop_iter_bounded budget st ev st' acts :
  loop_iter st ev = Some (st', acts) ->
  budget + acceptedBytes acts <= GoInt.max_int ->
  bounded budget (mem st) ->
  bounded (budget + acceptedBytes acts) (mem st').
Proof.
  intros H Hfit B. loop_cases H; loop_simpl;
    rewrite ?Z.add_0_r in *; try exact B.
  - apply push_bounded; [exact B| |lia].
    match goal with
    | E : negb (_ <? _) = true |- _ =>
        by apply negb_true_iff, Z.ltb_ge in E
    end.
  - by apply shift_bounded.
Qed.

Lemma loop_run_bounded evs : forall budget st st' acts,
  loop_run evs st = Some (st', acts) ->
  budget + acceptedBytes acts <= GoInt.max_int ->
  bounded budget (mem st) ->
  bounded (budget + acceptedBytes acts) (mem st').
Proof.
  induction evs as [|ev evs IH]; intros budget st st' acts H Hfit B;
    cbn [loop_run] in H.
  - injection H as <- <-. cbn. by rewrite Z.add_0_r.
  - destruct (loop_iter st ev) as [[st1 a1]|] eqn:H1; [|discriminate].
    destruct (loop_run evs st1) as [[st2 a2]|] eqn:H2; [|discriminate].
    injection H as <- <-. rewrite acceptedBytes_app in *.
    pose proof (acceptedBytes_nonneg a2).
    rewrite Z.add_assoc. apply (IH _ st1); [exact H2|lia|].
    apply (loop_iter_bounded _ st ev); [exact H1|lia|exact B].
Qed.

Lemma loop_run_limit evs : forall st st' acts,
  loop_run evs st = Some (st', acts) ->
  limit (mem st') = limit (mem st).
Proof.
  induction evs as [|ev evs IH]; intros st st' acts H; cbn [loop_run] in H.
  - by injection H as <- <-.
  - destruct (loop_iter st ev) as [[st1 a1]|] eqn:H1; [|discriminate].
    destruct (loop_run evs st1) as [[st2 a2]|] eqn:H2; [|discriminate].
    injection H as <- <-. rewrite (IH _ _ _ H2).
    loop_cases H1; loop_simpl; rewrite ?push_limit, ?shift_limit; reflexivity.
Qed.

(** Memory bound of the unified loop.  With a limit that is not
    negative, and as long as the bytes accepted so far are representable
    as an [int], [used] is never above the configured limit by more than
    the size of the newest message in the queue: the one push that went
    over. *)
Theorem loop_memory_bound (limit : Z) (cin cout : chan) (evs : list Event)
    (st : LoopState) (acts : list Action) :
  0 <= limit ->
  loop_run evs (loop_init (started limit cin cout)) = Some (st, acts) ->
  acceptedBytes acts <= GoInt.max_int ->
  used (mem st) <= limit + lastBytes (buffer (mem st)).
Proof.
  intros Hlim Hrun Hfit.
  assert (B : bounded 0 (mem (loop_init (started limit cin cout)))).
  { unfold bounded, lastBytes. cbn. repeat split; lia. }
  pose proof (loop_run_bounded evs 0 _ _ _ Hrun Hfit B) as (_ & _ & Hb).
  by rewrite (loop_run_limit _ _ _ _ Hrun) in Hb.
Qed.

Lemma loop_memory_bound_witness :
  match loop_run [RecvMessage (Some (mkMessage [mkSlice [] 2]));
                  SendResponse;
                  RecvMessage (Some (mkMessage [mkSlice [] 7]))]
                 (loop_init (started 3 1 2)) with
  | Some (st, acts) =>
      used (mem st) = 9 /\ used (mem st) <= 3 + lastBytes (buffer (mem st))
  | None => False
  end.
Proof.
  destruct (loop_run _ (loop_init (started 3 1 2))) as [[st acts]|] eqn:E;
    [|discriminate E].
  assert (Hfit : acceptedBytes acts <= GoInt.max_int).
  { vm_compute in E. injection E as <- <-. vm_compute. discriminate. }
  split; [vm_compute in E; by injection E as <- <-|].
  refine (loop_memory_bound 3 1%nat 2%nat _ st acts _ E Hfit). lia.
Defined.

Lemma dual_step_bounded budget st ev st' acts :
  dual_step st ev = Some (st', acts) ->
  budget + acceptedBytes acts <= GoInt.max_int ->
  bounded_dual budget st ->
  bounded_dual (budget + acceptedBytes acts) st'.
Proof.
  unfold bounded_dual. intros H Hfit (Hu & Hb & Hc & Hl).
  destruct st as [m ipc rp opc om em es]. dual_simpl.
  dual_cases H; dual_simpl; simplify_eq; dual_simpl.
  all: rewrite ?Z.add_0_r in *.
  all: try (pose proof (msgBytes_nonneg msg)).
  all: try (pose proof (pendingBytes_nonneg ipc)).
  all: match type of Hu with
       | used ?x = _ => pose proof (stored_nonneg (buffer x))
       end.
  all: try (repeat split; first [assumption | lia | discriminate
                              | intros _;
                                match goal with
                                | E : (_ <? _) = false |- _ =>
                                    by apply Z.ltb_ge in E
                                end]).
  all: lazymatch goal with
       | |- context [pushMessage ?x ?y] =>
           destruct (push_bounded (budget - msgBytes x) x y)
             as (P1 & P2 & P3);
           [repeat split; [assumption|lia|assumption]|by apply Hc|lia|];
           repeat split; [assumption|lia|discriminate|assumption]
       | |- context [shiftMessage ?y] =>
           destruct (shift_bounded (budget - pendingBytes ipc) y)
             as (P1 & P2 & P3);
           [repeat split; [assumption|lia|assumption]|lia|];
           repeat split; [assumption|lia| |assumption];
           intros Hcm; rewrite shift_limit;
           pose proof (shift_used_le y Hu); specialize (Hc Hcm); lia
       end.
Qed.

Lemma dual_run_bounded evs : forall budget st st' acts,
  dual_run evs st = Some (st', acts) ->
  budget + acceptedBytes acts <= GoInt.max_int ->
  bounded_dual budget st ->
  bounded_dual (budget + acceptedBytes acts) st'.
Proof.
  induction evs as [|ev evs IH]; intros budget st st' acts H Hfit B;
    cbn [dual_run] in H.
  - injection H as <- <-. cbn. by rewrite Z.add_0_r.
  - destruct (dual_step st ev) as [[st1 a1]|] eqn:H1; [|discriminate].
    destruct (dual_run evs st1) as [[st2 a2]|] eqn:H2; [|discriminate].
    injection H as <- <-. rewrite acceptedBytes_app in *.
    pose proof (acceptedBytes_nonneg a2).
    rewrite Z.add_assoc. apply (IH _ st1); [exact H2|lia|].
    apply (dual_step_bounded _ st ev); [exact H1|lia|exact B].
Qed.

Lemma dual_run_limit evs : forall st st' acts,
  dual_run evs st = Some (st', acts) ->
  limit (shared st') = limit (shared st).
Proof.
  induction evs as [|ev evs IH]; intros st st' acts H; cbn [dual_run] in H.
  - by injection H as <- <-.
  - destruct (dual_step st ev) as [[st1 a1]|] eqn:H1; [|discriminate].
    destruct (dual_run evs st1) as [[st2 a2]|] eqn:H2; [|discriminate].
    injection H as <- <-. rewrite (IH _ _ _ H2).
    destruct st as [m ipc rp opc om em es].
    dual_cases H1; dual_simpl; simplify_eq; dual_simpl;
      rewrite ?push_limit, ?shift_limit; reflexivity.
Qed.

(** Memory bound of the two goroutines.  With a limit that is not
    negative, and as long as the bytes accepted so far are representable
    as an [int], [used] is never above the configured limit by more than
    the size of the newest message in the queue, however the steps of
    [inputLoop] and [outputLoop] interleave. *)
Theorem dual_memory_bound (limit : Z) (cin cout : chan)
    (evs : list DualEvent) (st : DualState) (acts : list Action) :
  0 <= limit ->
  dual_run evs (dual_init (started limit cin cout)) = Some (st, acts) ->
  acceptedBytes acts <= GoInt.max_int ->
  used (shared st) <= limit + lastBytes (buffer (shared st)).
Proof.
  intros Hlim Hrun Hfit.
  assert (B : bounded_dual 0 (dual_init (started limit cin cout))).
  { unfold bounded_dual, lastBytes. cbn. repeat split; try lia; discriminate. }
  pose proof (dual_run_bounded evs 0 _ _ _ Hrun Hfit B) as (_ & _ & _ & Hb).
  by rewrite (dual_run_limit _ _ _ _ Hrun) in Hb.
Qed.

Lemma dual_memory_bound_witness :
  match dual_run [InTick; InTick;
                  InReceive (Some (mkMessage [mkSlice [] 2]));
                  InTick; InTick; InTick; InTick;
                  InReceive (Some (mkMessage [mkSlice [] 7]));
                  OutTick; InTick]
                 (dual_init (started 3 1 2)) with
  | Some (st, acts) =>
      used (shared st) = 9 /\
      used (shared st) <= 3 + lastBytes (buffer (shared st))
  | None => False
  end.
Proof.
  destruct (dual_run _ (dual_init (started 3 1 2))) as [[st acts]|] eqn:E;
    [|discriminate E].
  assert (Hfit : acceptedBytes acts <= GoInt.max_int).
  { vm_compute in E. injection E as <- <-. vm_compute. discriminate. }
  split; [vm_compute in E; by injection E as <- <-|].
  refine (dual_memory_bound 3 1%nat 2%nat _ st acts _ E Hfit). lia.
Defined.

End MemoryBound.

(** ** What goes in comes out *)

Section Delivery.

Lemma acceptedMsgs_app a b :
  acceptedMsgs (a ++ b) = acceptedMsgs a ++ acceptedMsgs b.
Proof.
  induction a as [|x a IH]; [reflexivity|].
  destruct x; cbn [app acceptedMsgs]; by rewrite ?IH.
Qed.

Lemma okResponses_cons ev evs :
  okResponses (ev :: evs) = (okResponses [ev] + okResponses evs)%nat.
Proof.
  unfold okResponses. cbn [List.filter].
  destruct ev as [| | |x| |]; try reflexivity. by destruct (is_ok x).
Qed.

Lemma push_running msg m : running (snd (pushMessage msg m)) = running m.
Proof. reflexivity. Qed.

Lemma shift_running m : running (snd (shiftMessage m)) = running m.
Proof. unfold shiftMessage. by destruct (buffer m). Qed.

Lemma push_closedWG msg m : closedWG (snd (pushMessage msg m)) = closedWG m.
Proof. reflexivity. Qed.

Lemma shift_closedWG m : closedWG (snd (shiftMessage m)) = closedWG m.
Proof. unfold shiftMessage. by destruct (buffer m). Qed.

Lemma push_buffer_snoc msg m :
  buffer (snd (pushMessage msg m)) = buffer m ++ [msg].
Proof. reflexivity. Qed.

(** What a shift takes away is the head, and nothing else. *)
Lemma shift_splits m :
  exists gone,
    buffer m = gone ++ buffer (snd (shiftMessage m)) /\
    (length gone <= 1)%nat.
Proof.
  rewrite shift_buffer. destruct (buffer m) as [|h rest].
  - exists []. split; [reflexivity|cbn; lia].
  - exists [h]. split; [reflexivity|cbn; lia].
Qed.

Lemma loop_iter_conserves st ev st' acts :
  loop_iter st ev = Some (st', acts) ->
  exists gone,
    buffer (mem st) ++ acceptedMsgs acts = gone ++ buffer (mem st') /\
    (length gone <= okResponses [ev])%nat.
Proof.
  intros H. loop_cases H; loop_simpl;
    try (exists []; split; [by rewrite ?app_nil_r|cbn; lia]).
  destruct (shift_splits (mem st)) as (gone & Hg & Hlen).
  exists gone. split; [by rewrite app_nil_r|].
  unfold okResponses. cbn [List.filter is_ok].
  match goal with E : Error _ = None |- _ => rewrite E end. exact Hlen.
Qed.

Lemma loop_run_conserves evs : forall st st' acts,
  loop_run evs st = Some (st', acts) ->
  exists gone,
    buffer (mem st) ++ acceptedMsgs acts = gone ++ buffer (mem st') /\
    (length gone <= okResponses evs)%nat.
Proof.
  induction evs as [|ev evs IH]; intros st st' acts H; cbn [loop_run] in H.
  - injection H as <- <-. exists []. split; [by rewrite app_nil_r|cbn; lia].
  - destruct (loop_iter st ev) as [[st1 a1]|] eqn:H1; [|discriminate].
    destruct (loop_run evs st1) as [[st2 a2]|] eqn:H2; [|discriminate].
    injection H as <- <-.
    destruct (loop_iter_conserves _ _ _ _ H1) as (g1 & E1 & L1).
    destruct (IH _ _ _ H2) as (g2 & E2 & L2).
    exists (g1 ++ g2). split.
    + rewrite acceptedMsgs_app, app_assoc, E1, <- app_assoc, E2.
      by rewrite app_assoc.
    + rewrite length_app, okResponses_cons. lia.
Qed.

(** No loss in the unified loop.  Whatever the schedule, the messages
    that were in the queue at the start followed by the messages accepted
    since are, in that order, the messages that have left the queue
    followed by the queue as it is now; and no more messages have left
    than success responses have come in.  Failures and closed channels
    remove nothing. *)
Theorem loop_no_loss (m : Memory) (evs : list Event) (st : LoopState)
    (acts : list Action) :
  loop_run evs (loop_init m) = Some (st, acts) ->
  exists gone,
    buffer m ++ acceptedMsgs acts = gone ++ buffer (mem st) /\
    (length gone <= okResponses evs)%nat.
Proof. apply loop_run_conserves. Qed.

Lemma loop_no_loss_witness :
  match loop_run [RecvMessage (Some (mkMessage [mkSlice [] 2]));
                  SendMessage;
                  RecvResponse (Some (NewSimpleResponse (Some (ErrOther 1))));
                  SendResponse;
                  RecvMessage (Some (mkMessage [mkSlice [] 4]))]
                 (loop_init (started 9 1 2)) with
  | Some (st, acts) =>
      exists gone,
        [] ++ acceptedMsgs acts = gone ++ buffer (mem st) /\
        (length gone <= 0)%nat
  | None => False
  end.
Proof.
  destruct (loop_run _ (loop_init (started 9 1 2))) as [[st acts]|] eqn:E;
    [|discriminate E].
  exact (loop_no_loss (started 9 1 2) _ st acts E).
Defined.

Lemma okResponsesDual_cons ev evs :
  okResponsesDual (ev :: evs)
  = (okResponsesDual [ev] + okResponsesDual evs)%nat.
Proof.
  unfold okResponsesDual. cbn [List.filter].
  destruct ev as [| | |x| |]; try reflexivity. by destruct (is_ok x).
Qed.

Lemma dual_step_conserves st ev st' acts :
  dual_step st ev = Some (st', acts) ->
  exists gone,
    buffer (shared st) ++ inHand (in_pc st) ++ acceptedMsgs acts
    = gone ++ buffer (shared st') ++ inHand (in_pc st') /\
    (length gone + shifting (out_pc st')
     <= okResponsesDual [ev] + shifting (out_pc st))%nat.
Proof.
  intros H. destruct st as [m ipc rp opc om em es]. dual_simpl.
  dual_cases H; dual_simpl; simplify_eq; dual_simpl;
    try (exists []; split;
         [by rewrite ?app_nil_r, ?push_buffer_snoc
         |unfold okResponsesDual; cbn [List.filter is_ok length];
          rewrite ?Heqo1, ?Heqo0, ?Heqo; cbn; lia]).
  - exists []. split; [by rewrite app_nil_r|].
    unfold okResponsesDual. cbn [List.filter is_ok].
    match goal with E : Error _ = None |- _ => rewrite E end. cbn. lia.
  - destruct (shift_splits m) as (gone & Hg & Hlen).
    exists gone. split; [|cbn; lia].
    rewrite app_nil_r. rewrite Hg at 1. by rewrite <- app_assoc.
Qed.

Lemma dual_run_conserves evs : forall st st' acts,
  dual_run evs st = Some (st', acts) ->
  exists gone,
    buffer (shared st) ++ inHand (in_pc st) ++ acceptedMsgs acts
    = gone ++ buffer (shared st') ++ inHand (in_pc st') /\
    (length gone + shifting (out_pc st')
     <= okResponsesDual evs + shifting (out_pc st))%nat.
Proof.
  induction evs as [|ev evs IH]; intros st st' acts H; cbn [dual_run] in H.
  - injection H as <- <-. exists []. split; [by rewrite app_nil_r|cbn; lia].
  - destruct (dual_step st ev) as [[st1 a1]|] eqn:H1; [|discriminate].
    destruct (dual_run evs st1) as [[st2 a2]|] eqn:H2; [|discriminate].
    injection H as <- <-.
    destruct (dual_step_conserves _ _ _ _ H1) as (g1 & E1 & L1).
    destruct (IH _ _ _ H2) as (g2 & E2 & L2).
    exists (g1 ++ g2). split.
    + rewrite acceptedMsgs_app.
      apply (f_equal (fun l => l ++ acceptedMsgs a2)) in E1.
      rewrite <- !app_assoc in E1. rewrite E1, E2.
      by rewrite <- !app_assoc.
    + rewrite length_app, okResponsesDual_cons. lia.
Qed.

(** No loss between the two goroutines.  However their steps interleave,
    the messages in the queue at the start followed by the messages
    accepted since are, in that order, the messages that have left the
    queue, then the queue as it is now, then the message [inputLoop] has
    received and not yet pushed; and no more messages have left than
    success responses have come in. *)
Theorem dual_no_loss (m : Memory) (evs : list DualEvent) (st : DualState)
    (acts : list Action) :
  dual_run evs (dual_init m) = Some (st, acts) ->
  exists gone,
    buffer m ++ acceptedMsgs acts
    = gone ++ buffer (shared st) ++ inHand (in_pc st) /\
    (length gone <= okResponsesDual evs)%nat.
Proof.
  intros H. destruct (dual_run_conserves _ _ _ _ H) as (gone & E & L).
  exists gone. split; [exact E|]. cbn in L. lia.
Qed.

Lemma dual_no_loss_witness :
  match dual_run [InTick; InTick;
                  InReceive (Some (mkMessage [mkSlice [] 2]));
                  OutTick; InTick; OutTick; OutTick;
                  OutReceive (Some (NewSimpleResponse None));
                  OutTick; InTick; InTick; InTick;
                  InReceive (Some (mkMessage [mkSlice [] 4]))]
                 (dual_init (started 9 1 2)) with
  | Some (st, acts) =>
      exists gone,
        [] ++ acceptedMsgs acts
        = gone ++ buffer (shared st) ++ inHand (in_pc st) /\
        (length gone <= 1)%nat
  | None => False
  end.
Proof.
  settle_run E.
  match type of E with
  | _ = Some (?st, ?acts) => exact (dual_no_loss (started 9 1 2) _ st acts E)
  end.
Defined.

Lemma dual_step_holds_head st ev st' acts :
  holds_head st ->
  dual_step st ev = Some (st', acts) ->
  holds_head st' /\
  forall x, In (Forwarded x) acts ->
    exists rest, buffer (shared st) = x :: rest.
Proof.
  unfold holds_head. intros [Hh Hs] H.
  destruct st as [m ipc rp opc om em es]. dual_simpl.
  dual_cases H; dual_simpl; simplify_eq; dual_simpl.
  all: try (specialize (Hs eq_refl); subst om).
  all: rewrite ?push_buffer_snoc.
  all: split; [split|].
  all: first
    [ by (intros Hpc; first [discriminate Hpc | reflexivity | exact (Hs Hpc)])
    | by (intros x Hx; destruct (Hh x Hx) as [rest E]; rewrite E; by eexists)
    | by (intros x Hx; simplify_eq; first [by apply Hh | by eexists])
    | by (intros x Hx; cbn in Hx;
          repeat (destruct Hx as [Hx|Hx]; try discriminate Hx);
          first [ injection Hx as <-; exact (Hh _ eq_refl)
                | destruct Hx ]) ].
Qed.

Lemma dual_run_holds_head evs : forall st st' acts,
  holds_head st ->
  dual_run evs st = Some (st', acts) ->
  holds_head st'.
Proof.
  induction evs as [|ev evs IH]; intros st st' acts K H; cbn [dual_run] in H.
  - by injection H as <- <-.
  - destruct (dual_step st ev) as [[st1 a1]|] eqn:H1; [|discriminate].
    destruct (dual_run evs st1) as [[st2 a2]|] eqn:H2; [|discriminate].
    injection H as <- <-. apply (IH st1 _ a2); [|exact H2].
    exact (proj1 (dual_step_holds_head _ _ _ _ K H1)).
Qed.

(** [outputLoop] sends the oldest message only.  In every state the two
    goroutines reach, whatever [outputLoop] sends on [messagesOut] is the
    head of the queue at that moment, pushes of [inputLoop] in between
    notwithstanding. *)
Theorem outputLoop_sends_head (m : Memory) (evs : list DualEvent)
    (st st' : DualState) (acts step_acts : list Action) (ev : DualEvent)
    (x : Message) :
  dual_run evs (dual_init m) = Some (st, acts) ->
  dual_step st ev = Some (st', step_acts) ->
  In (Forwarded x) step_acts ->
  exists rest, buffer (shared st) = x :: rest.
Proof.
  intros Hrun Hstep Hin.
  assert (K : holds_head (dual_init m)) by (split; [discriminate|discriminate]).
  pose proof (dual_run_holds_head _ _ _ _ K Hrun) as K'.
  exact (proj2 (dual_step_holds_head _ _ _ _ K' Hstep) x Hin).
Qed.

Lemma outputLoop_sends_head_witness :
  match dual_run [InTick; InTick;
                  InReceive (Some (mkMessage [mkSlice [] 2]));
                  InTick; OutTick; OutTick; InTick; InTick; InTick;
                  InReceive (Some (mkMessage [mkSlice [] 4])); InTick]
                 (dual_init (started 9 1 2)) with
  | Some (st, acts) =>
      dual_step st OutTick
      = Some (out_goto OutRecvRes (out_msg st) (errMap st) (errs st)
                (shared st) st,
              [Forwarded (mkMessage [mkSlice [] 2])]) /\
      exists rest, buffer (shared st) = mkMessage [mkSlice [] 2] :: rest
  | None => False
  end.
Proof.
  settle_run E.
  match type of E with
  | _ = Some (?st, ?acts) =>
      assert (Hstep : dual_step st OutTick
                      = Some (out_goto OutRecvRes (out_msg st) (errMap st)
                                (errs st) (shared st) st,
                              [Forwarded (mkMessage [mkSlice [] 2])]))
        by reflexivity;
      split; [exact Hstep|];
      refine (outputLoop_sends_head (started 9 1 2) _ st _ acts _ OutTick
                (mkMessage [mkSlice [] 2]) E Hstep _);
      left; reflexivity
  end.
Defined.

Lemma forwards_app a b : forwards (a ++ b) = (forwards a + forwards b)%nat.
Proof. unfold forwards. by rewrite List.filter_app, length_app. Qed.

Lemma answers_cons ev evs :
  answers (ev :: evs) = (answers [ev] + answers evs)%nat.
Proof. unfold answers. cbn [List.filter]. by destruct ev. Qed.

Lemma answersDual_cons ev evs :
  answersDual (ev :: evs) = (answersDual [ev] + answersDual evs)%nat.
Proof. unfold answersDual. cbn [List.filter]. by destruct ev. Qed.

Lemma loop_iter_in_flight st ev st' acts :
  loop_iter st ev = Some (st', acts) ->
  (forwards acts + owed (responseInPending st)
   <= answers [ev] + owed (responseInPending st'))%nat.
Proof.
  intros H. unfold loop_iter, select in H.
  destruct (loop_running st); [|discriminate].
  destruct ev as [x| | |x| |].
  - destruct (inMsgChan (prepare st)); [|discriminate].
    destruct x; cbn in H; injection H as <- <-; cbn; lia.
  - destruct (outResChan (prepare st)); [|discriminate].
    injection H as <- <-. cbn. lia.
  - pose proof (prepare_outMsgChan st) as Hp.
    destruct (outMsgChan (prepare st)); [|discriminate].
    injection H as <- <-.
    destruct (responseInPending st); [|cbn; lia].
    cbn in Hp. discriminate.
  - destruct (responsesIn (mem st)); [|discriminate].
    injection H as <- <-. cbn. destruct (responseInPending st); cbn; lia.
  - destruct (errChan (prepare st)); [|discriminate].
    injection H as <- <-. cbn. lia.
  - injection H as <- <-. cbn. lia.
Qed.

Lemma loop_run_in_flight evs : forall st st' acts,
  loop_run evs st = Some (st', acts) ->
  (forwards acts + owed (responseInPending st)
   <= answers evs + owed (responseInPending st'))%nat.
Proof.
  induction evs as [|ev evs IH]; intros st st' acts H; cbn [loop_run] in H.
  - injection H as <- <-. cbn. lia.
  - destruct (loop_iter st ev) as [[st1 a1]|] eqn:H1; [|discriminate].
    destruct (loop_run evs st1) as [[st2 a2]|] eqn:H2; [|discriminate].
    injection H as <- <-.
    pose proof (loop_iter_in_flight _ _ _ _ H1).
    pose proof (IH _ _ _ H2).
    rewrite forwards_app, answers_cons. lia.
Qed.

Lemma dual_step_in_flight st ev st' acts :
  dual_step st ev = Some (st', acts) ->
  (forwards acts + waiting (out_pc st)
   = answersDual [ev] + waiting (out_pc st'))%nat.
Proof.
  intros H. destruct st as [m ipc rp opc om em es]. dual_simpl.
  dual_cases H; dual_simpl; simplify_eq; dual_simpl; reflexivity.
Qed.

Lemma dual_run_in_flight evs : forall st st' acts,
  dual_run evs st = Some (st', acts) ->
  (forwards acts + waiting (out_pc st)
   = answersDual evs + waiting (out_pc st'))%nat.
Proof.
  induction evs as [|ev evs IH]; intros st st' acts H; cbn [dual_run] in H.
  - injection H as <- <-. cbn. lia.
  - destruct (dual_step st ev) as [[st1 a1]|] eqn:H1; [|discriminate].
    destruct (dual_run evs st1) as [[st2 a2]|] eqn:H2; [|discriminate].
    injection H as <- <-.
    pose proof (dual_step_in_flight _ _ _ _ H1).
    pose proof (IH _ _ _ H2).
    rewrite forwards_app, answersDual_cons. lia.
Qed.

(** One delivery in flight.  The unified loop never has sent more
    messages to the consumer than it has received responses, plus the one
    it still waits for; [outputLoop] has sent exactly as many messages as
    it has received responses, plus one while it waits at its receive.
    So neither sends the next message before the consumer has answered
    the last. *)
Theorem one_delivery_in_flight :
  (forall m evs st acts,
      loop_run evs (loop_init m) = Some (st, acts) ->
      (forwards acts <= answers evs + owed (responseInPending st))%nat) /\
  (forall m evs st acts,
      dual_run evs (dual_init m) = Some (st, acts) ->
      forwards acts = (answersDual evs + waiting (out_pc st))%nat).
Proof.
  split; intros m evs st acts H.
  - pose proof (loop_run_in_flight _ _ _ _ H) as L. cbn in L. lia.
  - pose proof (dual_run_in_flight _ _ _ _ H) as L. cbn in L. lia.
Qed.

Lemma one_delivery_in_flight_witness :
  match loop_run [RecvMessage (Some (mkMessage [mkSlice [] 2]));
                  SendMessage;
                  RecvResponse (Some (NewSimpleResponse (Some (ErrOther 1))));
                  SendMessage]
                 (loop_init (started 9 1 2)) with
  | Some (st, acts) =>
      forwards acts = 2%nat /\
      (forwards acts <= 1 + owed (responseInPending st))%nat
  | None => False
  end.
Proof.
  settle_run E.
  match type of E with
  | _ = Some (?st, ?acts) =>
      split; [reflexivity|];
      exact (proj1 one_delivery_in_flight (started 9 1 2) _ st acts E)
  end.
Defined.

End Delivery.

(** ** Shutting down, and never starting *)

Section Shutdown.

Lemma dual_step_winding_down st ev st' acts :
  running (shared st) <> 1 ->
  dual_step st ev = Some (st', acts) ->
  running (shared st') <> 1 /\
  (accepts acts + owed (may_accept (in_pc st'))
   <= owed (may_accept (in_pc st)))%nat /\
  (forwards acts + owed (may_forward (out_pc st'))
   <= owed (may_forward (out_pc st)))%nat.
Proof.
  intros Hrun H. destruct st as [m ipc rp opc om em es]. dual_simpl.
  dual_cases H; dual_simpl; simplify_eq; dual_simpl.
  all: try match goal with
           | E : (running _ =? 1) = true |- _ =>
               apply Z.eqb_eq in E; contradiction
           end.
  all: rewrite ?push_running, ?shift_running.
  all: repeat split; first [assumption | discriminate | cbn; lia].
Qed.

Lemma dual_run_winding_down evs : forall st st' acts,
  running (shared st) <> 1 ->
  dual_run evs st = Some (st', acts) ->
  running (shared st') <> 1 /\
  (accepts acts + owed (may_accept (in_pc st'))
   <= owed (may_accept (in_pc st)))%nat /\
  (forwards acts + owed (may_forward (out_pc st'))
   <= owed (may_forward (out_pc st)))%nat.
Proof.
  induction evs as [|ev evs IH]; intros st st' acts Hr H; cbn [dual_run] in H.
  - injection H as <- <-. cbn. repeat split; [exact Hr|lia|lia].
  - destruct (dual_step st ev) as [[st1 a1]|] eqn:H1; [|discriminate].
    destruct (dual_run evs st1) as [[st2 a2]|] eqn:H2; [|discriminate].
    injection H as <- <-.
    destruct (dual_step_winding_down _ _ _ _ Hr H1) as (R1 & A1 & F1).
    destruct (IH _ _ _ R1 H2) as (R2 & A2 & F2).
    rewrite accepts_app, forwards_app. repeat split; [exact R2|lia|lia].
Qed.

(** Winding down.  Once [running] is no longer 1 (after [CloseAsync], or
    after either goroutine saw its channel closed) it never is again, and
    from then on [inputLoop] accepts at most one more message and
    [outputLoop] sends at most one more: the ones they were already
    committed to when the flag changed. *)
Theorem winding_down (st st' : DualState) (evs : list DualEvent)
    (acts : list Action) :
  running (shared st) <> 1 ->
  dual_run evs st = Some (st', acts) ->
  running (shared st') <> 1 /\
  (accepts acts <= 1)%nat /\ (forwards acts <= 1)%nat.
Proof.
  intros Hr H.
  destruct (dual_run_winding_down _ _ _ _ Hr H) as (R & A & F).
  split; [exact R|].
  destruct (may_accept (in_pc st)), (may_forward (out_pc st));
    cbn [owed] in *; lia.
Qed.

Lemma winding_down_witness :
  match dual_run [InTick; InTick; CallCloseAsync;
                  InReceive (Some (mkMessage [mkSlice [] 2]));
                  InTick; InTick; InTick; InTick;
                  OutTick; OutTick]
                 (dual_init (started 9 1 2)) with
  | Some (st, acts) =>
      in_pc st = InDone /\ out_pc st = OutDone /\ accepts acts = 1%nat
  | None => False
  end /\
  match dual_run [InReceive (Some (mkMessage [mkSlice [] 2]));
                  InTick; InTick; InTick; InTick;
                  OutTick; OutTick]
                 (in_goto InRecv false (CloseAsync (started 9 1 2))
                    (dual_init (started 9 1 2))) with
  | Some (st, acts) => (accepts acts <= 1)%nat /\ (forwards acts <= 1)%nat
  | None => False
  end.
Proof.
  split.
  - settle_run E. repeat split.
  - settle_run E.
    match type of E with
    | _ = Some (?st, ?acts) =>
        refine (proj2 (winding_down _ st _ acts _ E)); discriminate
    end.
Defined.

Lemma dual_step_live st ev st' acts :
  dual_step st ev = Some (st', acts) ->
  closedWG (shared st') - live st' = closedWG (shared st) - live st.
Proof.
  intros H. destruct st as [m ipc rp opc om em es]. unfold live. dual_simpl.
  dual_cases H; dual_simpl; simplify_eq; dual_simpl;
    rewrite ?push_closedWG, ?shift_closedWG; lia.
Qed.

(** The wait group counts the goroutines still at work.  In every state
    reached after [StartListening] started them, [closedWG] is the number
    of the two goroutines that have not finished: it is never negative,
    and it is zero, which is what [WaitForClose] waits for, exactly when
    both [inputLoop] and [outputLoop] are done. *)
Theorem waitgroup_counts_live (limit : Z) (cin cout : chan)
    (evs : list DualEvent) (st : DualState) (acts : list Action) :
  dual_run evs (dual_init (started limit cin cout)) = Some (st, acts) ->
  closedWG (shared st) = live st /\
  0 <= closedWG (shared st) <= 2 /\
  (closedWG (shared st) = 0 <-> in_pc st = InDone /\ out_pc st = OutDone).
Proof.
  intros H.
  assert (L : closedWG (shared st) = live st).
  { revert H. generalize (eq_refl : closedWG (shared (dual_init (started limit cin cout)))
                                   - live (dual_init (started limit cin cout)) = 0).
    generalize (dual_init (started limit cin cout)) as st0.
    induction evs as [|ev evs IH] in acts |- *; intros st0 H0 H;
      cbn [dual_run] in H.
    - injection H as <- <-. lia.
    - destruct (dual_step st0 ev) as [[st1 a1]|] eqn:H1; [|discriminate].
      destruct (dual_run evs st1) as [[st2 a2]|] eqn:H2; [|discriminate].
      injection H as <- <-. apply (IH a2 st1); [|exact H2].
      rewrite (dual_step_live _ _ _ _ H1). exact H0. }
  split; [exact L|]. rewrite L. unfold live.
  destruct (in_pc st), (out_pc st); repeat split; try lia; try discriminate;
    intros [? ?]; discriminate.
Qed.

Lemma waitgroup_counts_live_witness :
  match dual_run [CallCloseAsync; InTick; InTick; OutTick]
                 (dual_init (started 9 1 2)) with
  | Some (st, acts) => closedWG (shared st) = 1 /\ closedWG (shared st) = live st
  | None => False
  end.
Proof.
  settle_run E.
  match type of E with
  | _ = Some (?st, ?acts) =>
      split; [reflexivity|];
      exact (proj1 (waitgroup_counts_live 9 1%nat 2%nat _ st acts E))
  end.
Defined.

Lemma disciplined_ext acts : forall f g,
  (forall c, f c = g c) ->
  disciplined f acts = disciplined g acts.
Proof.
  induction acts as [|a acts IH]; intros f g Hfg; [reflexivity|].
  destruct a; cbn [disciplined chan_of]; rewrite ?Hfg;
    f_equal; apply IH; intros c'; by rewrite ?Hfg.
Qed.

Lemma dual_step_disciplined st ev st' acts rest :
  dual_step st ev = Some (st', acts) ->
  disciplined (closed_by st') rest = true ->
  disciplined (closed_by st) (acts ++ rest) = true.
Proof.
  intros H Hrest. destruct st as [m ipc rp opc om em es]. dual_simpl.
  dual_cases H; dual_simpl; simplify_eq; dual_simpl.
  all: cbn [app disciplined chan_of closed_by in_pc out_pc negb andb].
  all: erewrite disciplined_ext; [exact Hrest|].
  all: intros []; reflexivity.
Qed.

Lemma dual_run_disciplined evs : forall st st' acts,
  dual_run evs st = Some (st', acts) ->
  disciplined (closed_by st) acts = true.
Proof.
  induction evs as [|ev evs IH]; intros st st' acts H; cbn [dual_run] in H.
  - by injection H as <- <-.
  - destruct (dual_step st ev) as [[st1 a1]|] eqn:H1; [|discriminate].
    destruct (dual_run evs st1) as [[st2 a2]|] eqn:H2; [|discriminate].
    injection H as <- <-.
    apply (dual_step_disciplined _ _ _ _ _ H1). by apply (IH _ st2).
Qed.

(** The turns of the unified loop send, they do not close. *)
Lemma loop_run_open evs : forall st st' acts rest,
  loop_run evs st = Some (st', acts) ->
  disciplined (fun _ => false) (acts ++ rest)
  = disciplined (fun _ => false) rest.
Proof.
  induction evs as [|ev evs IH]; intros st st' acts rest H;
    cbn [loop_run] in H.
  - by injection H as <- <-.
  - destruct (loop_iter st ev) as [[st1 a1]|] eqn:H1; [|discriminate].
    destruct (loop_run evs st1) as [[st2 a2]|] eqn:H2; [|discriminate].
    injection H as <- <-. rewrite <- app_assoc.
    rewrite <- (IH _ _ _ rest H2).
    loop_cases H1; reflexivity.
Qed.

(** Channel discipline.  In every execution of either variant, each of
    the three channels the loops write to ([messagesOut], [responsesOut]
    and [errorsChan]) is closed at most once, and nothing is sent on it
    once it is closed: on these channels the loops never run into the
    panics Go has for a second close and for a send on a closed
    channel. *)
Theorem channels_closed_once :
  (forall evs m st acts,
      loop evs m = Some (st, acts) ->
      disciplined (fun _ => false) acts = true) /\
  (forall evs m st acts,
      dual_run evs (dual_init m) = Some (st, acts) ->
      disciplined (fun _ => false) acts = true).
Proof.
  split; intros evs m st acts H.
  - unfold loop in H.
    destruct (loop_run evs (loop_init m)) as [[st1 a1]|] eqn:H1;
      [|discriminate].
    destruct (loop_running st1).
    + injection H as <- <-.
      rewrite <- (app_nil_r a1). by rewrite (loop_run_open _ _ _ _ [] H1).
    + cbn in H. injection H as <- <-.
      by rewrite (loop_run_open _ _ _ _ _ H1).
  - rewrite <- (dual_run_disciplined _ _ _ _ H).
    apply disciplined_ext. intros []; reflexivity.
Qed.

Lemma channels_closed_once_witness :
  disciplined (fun _ => false)
    [Accepted (mkMessage [mkSlice [] 2]);
     Responded (NewSimpleResponse None);
     Closed ResponsesOut; Closed ErrorsChan; Closed MessagesOut] = true.
Proof.
  refine (proj2 channels_closed_once
            [InTick; InTick; InReceive (Some (mkMessage [mkSlice [] 2]));
             InTick; InTick; CallCloseAsync; InTick; InTick;
             OutTick; OutTick]
            (started 9 1 2) _ _ _).
  vm_compute. reflexivity.
Defined.

Lemma shift_empty m : buffer m = [] -> snd (shiftMessage m) = m.
Proof. unfold shiftMessage. by intros ->. Qed.

Lemma loop_iter_starved st ev st' acts :
  starved (mem st) ->
  loop_iter st ev = Some (st', acts) ->
  starved (mem st') /\ accepts acts = 0%nat.
Proof.
  unfold starved. intros (Hb & Hu & Hl) H.
  loop_cases H; loop_simpl; rewrite ?shift_empty by exact Hb;
    try (split; [done|reflexivity]).
  all: match goal with
       | E : negb (_ <? _) = true |- _ =>
           apply negb_true_iff, Z.ltb_ge in E; lia
       end.
Qed.

Lemma dual_step_starved st ev st' acts :
  starved (shared st) -> idle (in_pc st) = true ->
  dual_step st ev = Some (st', acts) ->
  starved (shared st') /\ idle (in_pc st') = true /\ accepts acts = 0%nat.
Proof.
  unfold starved. intros (Hb & Hu & Hl) Hidle H.
  destruct st as [m ipc rp opc om em es]. dual_simpl.
  dual_cases H; dual_simpl; simplify_eq; dual_simpl;
    rewrite ?shift_empty by exact Hb; try discriminate;
    try (repeat split; done).
  all: match goal with
       | E : (_ <? _) = false |- _ => apply Z.ltb_ge in E; lia
       | E : negb (_ <? _) = true |- _ =>
           apply negb_true_iff, Z.ltb_ge in E; lia
       end.
Qed.

(** A limit below zero starves the producer.  [limitReached] is true of
    the empty queue then, so neither variant ever gets to its receive:
    however long they run, no message is accepted. *)
Theorem negative_limit_accepts_nothing (limit : Z) (cin cout : chan) :
  limit < 0 ->
  (forall evs st acts,
      loop_run evs (loop_init (started limit cin cout)) = Some (st, acts) ->
      accepts acts = 0%nat) /\
  (forall evs st acts,
      dual_run evs (dual_init (started limit cin cout)) = Some (st, acts) ->
      accepts acts = 0%nat).
Proof.
  intros Hneg. split.
  - assert (S0 : starved (mem (loop_init (started limit cin cout))))
      by (repeat split; assumption).
    revert S0. generalize (loop_init (started limit cin cout)) as st0.
    intros st0 S0 evs. revert st0 S0.
    induction evs as [|ev evs IH]; intros st0 S0 st acts H;
      cbn [loop_run] in H.
    + by injection H as <- <-.
    + destruct (loop_iter st0 ev) as [[st1 a1]|] eqn:H1; [|discriminate].
      destruct (loop_run evs st1) as [[st2 a2]|] eqn:H2; [|discriminate].
      injection H as <- <-.
      destruct (loop_iter_starved _ _ _ _ S0 H1) as [S1 A1].
      rewrite accepts_app, A1. exact (IH _ S1 _ _ H2).
  - assert (S0 : starved (shared (dual_init (started limit cin cout)))
                 /\ idle (in_pc (dual_init (started limit cin cout))) = true)
      by (repeat split; assumption).
    revert S0. generalize (dual_init (started limit cin cout)) as st0.
    intros st0 S0 evs. revert st0 S0.
    induction evs as [|ev evs IH]; intros st0 [S0 I0] st acts H;
      cbn [dual_run] in H.
    + by injection H as <- <-.
    + destruct (dual_step st0 ev) as [[st1 a1]|] eqn:H1; [|discriminate].
      destruct (dual_run evs st1) as [[st2 a2]|] eqn:H2; [|discriminate].
      injection H as <- <-.
      destruct (dual_step_starved _ _ _ _ S0 I0 H1) as (S1 & I1 & A1).
      rewrite accepts_app, A1. exact (IH _ (conj S1 I1) _ _ H2).
Qed.

Lemma negative_limit_accepts_nothing_witness :
  loop_iter (loop_init (started (-1) 1 2))
            (RecvMessage (Some (mkMessage [mkSlice [] 0]))) = None /\
  accepts [] = 0%nat.
Proof.
  split; [reflexivity|].
  refine (proj2 (negative_limit_accepts_nothing (-1) 1%nat 2%nat _)
            [InTick; InTick; InTick; InTick; OutTick] _ [] _).
  - lia.
  - vm_compute. reflexivity.
Defined.

End Shutdown.

(** ** The order of the two start calls *)

Section StartOrder.

(** Only [StartListening] starts the goroutines, and only when the input
    channel is already there.  On an agent with neither channel,
    [StartReceiving] followed by [StartListening] assigns both channels
    and starts the two loops (two more on the wait group); the same two
    calls the other way round also succeed and assign both channels, but
    start nothing. *)
Theorem start_order (m : Memory) (msgs responses : chan) :
  messagesIn m = None ->
  responsesIn m = None ->
  let r1 := StartReceiving (Some msgs) m in
  let l1 := StartListening (Some responses) (snd r1) in
  let l2 := StartListening (Some responses) m in
  let r2 := StartReceiving (Some msgs) (snd l2) in
  (fst r1 = None /\ fst l1 = None /\ fst l2 = None /\ fst r2 = None) /\
  (messagesIn (snd l1) = Some msgs /\ responsesIn (snd l1) = Some responses /\
   messagesIn (snd r2) = Some msgs /\ responsesIn (snd r2) = Some responses) /\
  (spawned (snd l1) = (spawned m + 2)%nat /\
   closedWG (snd l1) = closedWG m + 2) /\
  (spawned (snd r2) = spawned m /\ closedWG (snd r2) = closedWG m).
Proof.
  intros Hm Hr. unfold StartReceiving, StartListening.
  rewrite Hm, Hr. cbn. rewrite Hr, Hm. cbn. repeat split; by rewrite Hm.
Qed.

Lemma start_order_witness :
  spawned (started 5 1 2) = 2%nat /\
  spawned (snd (StartReceiving (Some 1%nat)
                  (snd (StartListening (Some 2%nat) (NewMemory 5))))) = 0%nat.
Proof.
  destruct (start_order (NewMemory 5) 1%nat 2%nat eq_refl eq_refl)
    as (_ & _ & [Hs _] & [Hn _]).
  split; [exact Hs|exact Hn].
Defined.

(** A nil channel does not count as a start.  [StartReceiving(nil)] on an
    agent without input channel returns no error and changes nothing, so
    the next [StartReceiving] is not refused.  [StartListening(nil)] on
    an agent that has its input channel returns no error either, leaves
    [responsesIn] nil, and starts two goroutines all the same: called
    twice, it starts four. *)
Theorem start_with_nil_channel (m : Memory) (c : chan) :
  (messagesIn m = None -> StartReceiving None m = (None, m)) /\
  (messagesIn m = Some c -> responsesIn m = None ->
   StartListening None m = (None, spawn_loops 2 m) /\
   StartListening None (spawn_loops 2 m)
   = (None, spawn_loops 2 (spawn_loops 2 m))).
Proof.
  unfold StartReceiving, StartListening. split.
  - intros Hm. rewrite Hm. destruct m. cbn in *. by subst.
  - intros Hm Hr. destruct m. cbn in *. subst. done.
Qed.

Lemma start_with_nil_channel_witness :
  StartReceiving None (NewMemory 5) = (None, NewMemory 5) /\
  spawned (snd (StartListening None
                  (snd (StartListening None
                          (snd (StartReceiving (Some 1%nat) (NewMemory 5)))))))
  = 4%nat.
Proof.
  destruct (start_with_nil_channel (NewMemory 5) 1%nat) as [Hnil _].
  destruct (start_with_nil_channel
              (snd (StartReceiving (Some 1%nat) (NewMemory 5))) 1%nat)
    as [_ Htwice].
  split; [exact (Hnil eq_refl)|].
  destruct (Htwice eq_refl eq_refl) as [H1 H2].
  rewrite H1. cbn [snd]. rewrite H2. reflexivity.
Defined.

End StartOrder.

(** * The stream manager *)

Section ManagerFacts.

Context {Config Info : Type}.

Implicit Types (infos : gmap string Info) (newSet : gmap string Config).

Lemma sort_existing_deleted newSet (l : list string) : forall acc id,
  id ∈ fst (fold_left (Manager.sort_existing newSet) l acc)
  <-> id ∈ fst acc \/ (id ∈ l /\ newSet !! id = None).
Proof.
  induction l as [|k l IH]; intros acc id; cbn [fold_left].
  - rewrite elem_of_nil. (intuition (subst; try congruence; eauto)).
  - rewrite IH, elem_of_cons. unfold Manager.sort_existing.
    destruct (newSet !! k) eqn:E; cbn [fst];
      rewrite ?elem_of_app, ?list_elem_of_singleton; (intuition (subst; try congruence; eauto)).
Qed.

Lemma sort_existing_updated newSet (l : list string) : forall acc,
  (forall id c, snd acc !! id = Some c -> newSet !! id = Some c) ->
  forall id c,
    snd (fold_left (Manager.sort_existing newSet) l acc) !! id = Some c
    <-> snd acc !! id = Some c \/ (id ∈ l /\ newSet !! id = Some c).
Proof.
  induction l as [|k l IH]; intros acc Hacc id c; cbn [fold_left].
  - rewrite elem_of_nil. (intuition (subst; try congruence; eauto)).
  - rewrite IH, elem_of_cons.
    + unfold Manager.sort_existing.
      destruct (newSet !! k) eqn:E; cbn [snd]; [|(intuition (subst; try congruence; eauto))].
      destruct (decide (id = k)) as [->|Hne].
      * rewrite lookup_insert_eq. specialize (Hacc k c). (intuition (subst; try congruence; eauto)).
      * rewrite lookup_insert_ne by done. (intuition (subst; try congruence; eauto)).
    + intros id' c'. unfold Manager.sort_existing.
      destruct (newSet !! k) eqn:E; cbn [snd]; [|apply Hacc].
      destruct (decide (id' = k)) as [->|Hne].
      * rewrite lookup_insert_eq. congruence.
      * rewrite lookup_insert_ne by done. apply Hacc.
Qed.

Lemma sort_existing_NoDup newSet (l : list string) : forall acc,
  NoDup (fst acc) -> NoDup l ->
  (forall id, id ∈ fst acc -> id ∉ l) ->
  NoDup (fst (fold_left (Manager.sort_existing newSet) l acc)).
Proof.
  induction l as [|k l IH]; intros acc Hacc Hl Hdisj; cbn [fold_left].
  - exact Hacc.
  - apply NoDup_cons in Hl as [Hk Hl]. apply IH; [|exact Hl|].
    + unfold Manager.sort_existing.
      destruct (newSet !! k); cbn [fst]; [exact Hacc|].
      apply NoDup_app. split; [exact Hacc|]. split; [|apply NoDup_singleton].
      intros id Hid Hin. apply list_elem_of_singleton in Hin as ->.
      apply (Hdisj k Hid). by left.
    + intros id. unfold Manager.sort_existing.
      destruct (newSet !! k); cbn [fst].
      * intros Hid Hin. apply (Hdisj id Hid). by right.
      * rewrite elem_of_app, list_elem_of_singleton.
        intros [Hid| ->]; [|exact Hk].
        intros Hin. apply (Hdisj id Hid). by right.
Qed.

Lemma sort_posted_created infos (l : list (string * Config)) : forall acc,
  NoDup l.*1 ->
  (forall id, is_Some (acc !! id) -> id ∉ l.*1) ->
  forall id c,
    fold_left (Manager.sort_posted infos) l acc !! id = Some c
    <-> acc !! id = Some c \/ ((id, c) ∈ l /\ infos !! id = None).
Proof.
  induction l as [|[k v] l IH]; intros acc Hl Hfresh id c;
    cbn [fold_left fmap list_fmap fst] in *.
  - rewrite elem_of_nil. (intuition (subst; try congruence; eauto)).
  - apply NoDup_cons in Hl as [Hk Hl].
    assert (Hkacc : acc !! k = None).
    { destruct (acc !! k) eqn:E; [|done].
      exfalso. apply (Hfresh k); [by eexists|by left]. }
    rewrite IH; [|exact Hl|].
    + rewrite elem_of_cons. unfold Manager.sort_posted. cbn [fst snd].
      destruct (infos !! k) eqn:E.
      * split; [(intuition (subst; try congruence; eauto))|].
        intros [?|[[?|?] ?]]; [by left|simplify_eq|by right].
      * destruct (decide (id = k)) as [->|Hne].
        -- rewrite lookup_insert_eq, Hkacc. split.
           ++ intros [?|[Hin _]]; [right; split; [left; congruence|done]|].
              exfalso. apply Hk. apply list_elem_of_fmap. by exists (k, c).
           ++ intros [?|[[?|Hin] _]]; [done|left; congruence|].
              exfalso. apply Hk. apply list_elem_of_fmap. by exists (k, c).
        -- rewrite lookup_insert_ne by done. (intuition (subst; try congruence; eauto)).
    + intros id'. unfold Manager.sort_posted. cbn [fst snd].
      destruct (infos !! k).
      * intros Hs Hin. apply (Hfresh id' Hs). by right.
      * destruct (decide (id' = k)) as [->|Hne]; [done|].
        rewrite lookup_insert_ne by done.
        intros Hs Hin. apply (Hfresh id' Hs). by right.
Qed.

Lemma existing_ids infos id :
  id ∈ (map_to_list infos).*1 <-> is_Some (infos !! id).
Proof.
  rewrite list_elem_of_fmap. split.
  - intros ([k v] & -> & Hin). apply elem_of_map_to_list in Hin. by eexists.
  - intros [v Hv]. exists (id, v). split; [done|].
    by apply elem_of_map_to_list.
Qed.

(** The plan of [HandleStreamsCRUD].  Of the streams that exist, those
    missing from the posted set are deleted, each once, and the others
    are updated with their posted configuration; the posted
    configurations of streams that do not exist are created.  So every
    existing stream is deleted or updated and never both, every posted
    configuration is used exactly once, for an update or for a creation,
    and nothing else is touched. *)
Theorem streams_plan infos newSet :
  let p := Manager.plan infos newSet in
  NoDup (Manager.toDelete p) /\
  (forall id, id ∈ Manager.toDelete p
              <-> is_Some (infos !! id) /\ newSet !! id = None) /\
  (forall id c, Manager.toUpdate p !! id = Some c
                <-> is_Some (infos !! id) /\ newSet !! id = Some c) /\
  (forall id c, Manager.toCreate p !! id = Some c
                <-> infos !! id = None /\ newSet !! id = Some c) /\
  Manager.toUpdate p ∪ Manager.toCreate p = newSet.
Proof.
  cbn zeta. unfold Manager.plan.
  cbn [Manager.toDelete Manager.toUpdate Manager.toCreate].
  assert (Hdel : forall id,
    id ∈ fst (fold_left (Manager.sort_existing newSet)
                (map_to_list infos).*1 ([], ∅))
    <-> is_Some (infos !! id) /\ newSet !! id = None).
  { intros id. rewrite sort_existing_deleted, existing_ids. cbn [fst].
    rewrite elem_of_nil. tauto. }
  assert (Hupd : forall id c,
    snd (fold_left (Manager.sort_existing newSet)
           (map_to_list infos).*1 ([], ∅)) !! id = Some c
    <-> is_Some (infos !! id) /\ newSet !! id = Some c).
  { intros id c. rewrite sort_existing_updated, existing_ids.
    - cbn [snd]. rewrite lookup_empty. intuition discriminate.
    - intros id' c'. cbn [snd]. by rewrite lookup_empty. }
  assert (Hcre : forall id c,
    fold_left (Manager.sort_posted infos) (map_to_list newSet) ∅ !! id = Some c
    <-> infos !! id = None /\ newSet !! id = Some c).
  { intros id c. rewrite sort_posted_created.
    - rewrite lookup_empty, elem_of_map_to_list. intuition discriminate.
    - apply NoDup_fst_map_to_list.
    - intros id' [x Hx]. by rewrite lookup_empty in Hx. }
  split; [|split; [exact Hdel|split; [exact Hupd|split; [exact Hcre|]]]].
  - apply sort_existing_NoDup; cbn [fst].
    + apply NoDup_nil_2.
    + apply NoDup_fst_map_to_list.
    + intros id Hid. by apply elem_of_nil in Hid.
  - apply map_eq. intros id. apply option_eq. intros c.
    rewrite lookup_union_Some_raw, Hupd, Hcre.
    split.
    + intros [[_ ?]|[_ [_ ?]]]; assumption.
    + intros Hc. destruct (infos !! id) eqn:E.
      * left. split; [by eexists|exact Hc].
      * right. split; [|by split].
        destruct (snd _ !! id) eqn:E'; [|done].
        apply Hupd in E' as [[x Hx] _]. rewrite E in Hx. discriminate.
Qed.

Lemma not_ready_listed (l : list (string * bool)) : forall acc k,
  k ∈ fold_left (fun notReady entry =>
                   if negb (snd entry) then notReady ++ [fst entry]
                   else notReady) l acc
  <-> k ∈ acc \/ (k, false) ∈ l.
Proof.
  induction l as [|[k' r] l IH]; intros acc k; cbn [fold_left fst snd].
  - rewrite elem_of_nil. tauto.
  - rewrite IH, elem_of_cons. destruct r; cbn [negb].
    + intuition congruence.
    + rewrite elem_of_app, list_elem_of_singleton.
      intuition (subst; try congruence; eauto).
Qed.

(** The ready check.  [HandleStreamReady] answers 200 with the body "OK"
    exactly when every stream says it is ready, in particular when there
    is no stream at all; otherwise it answers 503. *)
Theorem stream_ready (streams : gmap string bool) :
  (Manager.status (Manager.HandleStreamReady streams) = Manager.StatusOK
   <-> forall k ready, streams !! k = Some ready -> ready = true) /\
  (Manager.status (Manager.HandleStreamReady streams) = Manager.StatusOK ->
   Manager.body (Manager.HandleStreamReady streams) = "OK") /\
  (Manager.status (Manager.HandleStreamReady streams) <> Manager.StatusOK ->
   Manager.status (Manager.HandleStreamReady streams)
   = Manager.StatusServiceUnavailable) /\
  Manager.HandleStreamReady ∅ = Manager.mkReply Manager.StatusOK "OK".
Proof.
  unfold Manager.HandleStreamReady.
  pose proof (not_ready_listed (map_to_list streams) []) as Hl.
  destruct (fold_left _ (map_to_list streams) []) as [|k0 rest] eqn:E;
    cbn [Manager.status Manager.body].
  - repeat split; try done.
    intros _ k ready Hk. destruct ready; [done|].
    apply elem_of_map_to_list in Hk.
    specialize (Hl k). rewrite elem_of_nil in Hl.
    exfalso. apply Hl. by right.
  - repeat split; try done.
    intros Hall. exfalso. specialize (Hl k0).
    destruct (proj1 Hl) as [Hin|Hin]; [by left|by apply elem_of_nil in Hin|].
    apply elem_of_map_to_list in Hin. by specialize (Hall _ _ Hin).
Qed.

Lemma stream_ready_witness :
  Manager.HandleStreamReady {[ "in" := true; "out" := true ]}
  = Manager.mkReply 200 "OK" /\
  Manager.status (Manager.HandleStreamReady {[ "in" := true; "out" := false ]})
  = 503.
Proof.
  destruct (stream_ready {[ "in" := true; "out" := true ]})
    as (Hiff & Hbody & _).
  destruct (stream_ready {[ "in" := true; "out" := false ]})
    as (_ & _ & Hbad & _).
  assert (Hok : Manager.status
                  (Manager.HandleStreamReady {[ "in" := true; "out" := true ]})
                = Manager.StatusOK).
  { apply Hiff. intros k ready Hk.
    apply lookup_insert_Some in Hk as [[_ <-]|[_ Hk]]; [done|].
    apply lookup_singleton_Some in Hk as [_ <-]. done. }
  split.
  - specialize (Hbody Hok).
    destruct (Manager.HandleStreamReady _) as [st bd].
    cbn in Hok, Hbody. by subst.
  - apply Hbad. vm_compute. discriminate.
Defined.

End ManagerFacts.
